(** * The cops-and-robber referee of [game.py] on the tic-tac-toe graph

    A shallow embedding of class [Game]: the networkx graph it builds, the
    strategy engines it drives, its outcome latch, and the properties of the
    referee that follow from them. *)

From Stdlib Require Import ZArith List String Bool Lia.
Import ListNotations.
Open Scope string_scope.
Open Scope Z_scope.

(** ** Nodes and the graph *)

(** A node of [self.graph] is one of the Python tuples [(i, j)],
    [('row', i)], [('col', j)], [('dia', i)]. *)
Inductive Node : Type :=
| Cell (i j : Z)
| Row (i : Z)
| Col (j : Z)
| Dia (i : Z).

Definition Node_eqb (u v : Node) : bool :=
  match u, v with
  | Cell i j, Cell i' j' => (i =? i') && (j =? j')
  | Row i, Row i' => i =? i'
  | Col j, Col j' => j =? j'
  | Dia i, Dia i' => i =? i'
  | _, _ => false
  end.

(** The exceptions that occur in the referee.  [EngineError] stands for any
    instance of Python's [Exception] raised inside engine code. *)
Inductive exn : Type :=
| KeyError
| AttributeError
| RuntimeError
| EngineError.

(** Insertion-ordered dictionaries, as Python's [dict]. *)
Section Dict.
Context {V : Type}.

Fixpoint dict_get (d : list (Node * V)) (k : Node) : option V :=
  match d with
  | [] => None
  | (k', v) :: d' => if Node_eqb k k' then Some v else dict_get d' k
  end.

(** [d[k] = v]: an existing key keeps its position, a new one goes last. *)
Fixpoint dict_set (d : list (Node * V)) (k : Node) (v : V) : list (Node * V) :=
  match d with
  | [] => [(k, v)]
  | (k', v') :: d' =>
      if Node_eqb k k' then (k', v) :: d' else (k', v') :: dict_set d' k v
  end.
End Dict.

(** [networkx.Graph] as this program uses it: [nodes] maps a node to its
    ['label'] attribute, [adj] maps a node to its neighbours, both in
    insertion order. *)
Record Graph : Type := mkGraph {
  nodes : list (Node * string);
  adj : list (Node * list Node)
}.

Definition empty_graph : Graph := mkGraph [] [].

(** [G.add_node(v, label=l)] *)
Definition add_node (g : Graph) (v : Node) (l : string) : Graph :=
  mkGraph (dict_set (nodes g) v l)
          (match dict_get (adj g) v with
           | Some _ => adj g
           | None => dict_set (adj g) v []
           end).

Definition add_neighbour (a : list (Node * list Node)) (u v : Node)
  : list (Node * list Node) :=
  match dict_get a u with
  | Some ws => if existsb (Node_eqb v) ws then a else dict_set a u (ws ++ [v])%list
  | None => dict_set a u [v]
  end.

(** [G.add_edge(u, v)]; every call of the program names two nodes that were
    added before, so the labels are left alone. *)
Definition add_edge (g : Graph) (u v : Node) : Graph :=
  mkGraph (nodes g) (add_neighbour (add_neighbour (adj g) u v) v u).

(** [for x in range(n): body], threading the graph through the body. *)
Definition for_range (n : nat) (body : Z -> Graph -> Graph) (g : Graph) : Graph :=
  fold_left (fun g x => body (Z.of_nat x) g) (seq 0 n) g.

(** [__init_tictactoe_graph] *)
Definition __init_tictactoe_graph : Graph :=
  let g := empty_graph in
  let g := for_range 2 (fun i g => add_node g (Dia i) " ") g in
  for_range 3 (fun i g =>
    let g := add_node g (Row i) " " in
    for_range 3 (fun j g =>
      let g := if i =? 0 then add_node g (Col j) " " else g in
      let g := add_node g (Cell i j) " " in
      let g := add_edge g (Cell i j) (Row i) in
      let g := add_edge g (Cell i j) (Col j) in
      let g := if i =? j then add_edge g (Cell i j) (Dia 0) else g in
      let g := if i =? 2 - j then add_edge g (Cell i j) (Dia 1) else g in
      g) g) g.

(** [self.graph.nodes[w]['label']], a [KeyError] when [w] is no node. *)
Definition get_label (g : Graph) (w : Node) : exn + string :=
  match dict_get (nodes g) w with
  | Some l => inr l
  | None => inl KeyError
  end.

(** [self.graph.adj[v]] *)
Definition get_adj (g : Graph) (v : Node) : exn + list Node :=
  match dict_get (adj g) v with
  | Some ws => inr ws
  | None => inl KeyError
  end.

(** [self.graph.nodes[w]['label'] = l] *)
Definition set_label (g : Graph) (w : Node) (l : string) : exn + Graph :=
  match dict_get (nodes g) w with
  | Some _ => inr (mkGraph (dict_set (nodes g) w l) (adj g))
  | None => inl KeyError
  end.

(** The inner loop of [__three_in_a_row]: it runs over every neighbour and
    clears [win] at each one whose label differs. *)
Fixpoint neighbours_loop (g : Graph) (label : string) (ws : list Node) (win : bool)
  : exn + bool :=
  match ws with
  | [] => inr win
  | w :: ws' =>
      match get_label g w with
      | inl e => inl e
      | inr l => neighbours_loop g label ws' (if negb (String.eqb l label) then false else win)
      end
  end.

(** The outer loop of [__three_in_a_row] over the nodes still to visit. *)
Fixpoint nodes_loop (g : Graph) (label : string) (vs : list Node) : exn + Z :=
  match vs with
  | [] => inr 0
  | v :: vs' =>
      match get_adj g v with
      | inl e => inl e
      | inr ws =>
          match neighbours_loop g label ws true with
          | inl e => inl e
          | inr true => inr 1
          | inr false => nodes_loop g label vs'
          end
      end
  end.

(** [__three_in_a_row] *)
Definition __three_in_a_row (g : Graph) (label : string) : exn + Z :=
  nodes_loop g label (map fst (nodes g)).

(** [__game_tied]: the two nested [range(3)] loops, flattened in their order
    of iteration. *)
Fixpoint tied_loop (g : Graph) (cells : list (Z * Z)) : exn + Z :=
  match cells with
  | [] => inr 1
  | (i, j) :: cells' =>
      match get_label g (Cell i j) with
      | inl e => inl e
      | inr l => if String.eqb l " " then inr 0 else tied_loop g cells'
      end
  end.

Definition range3 : list Z := [0; 1; 2].

Definition __game_tied (g : Graph) : exn + Z :=
  tied_loop g (flat_map (fun i => map (fun j => (i, j)) range3) range3).

(** ** Strategy engines *)

(** What a call into engine code does: it returns a value or raises an
    instance of [Exception]. *)
Inductive call (A : Type) : Type :=
| Returns (a : A)
| Raises.
Arguments Returns {A} a.
Arguments Raises {A}.

(** A move is the [tuple[int, int] | None] that [step] is annotated with. *)
Definition Move : Type := option (Z * Z).

(** An engine class: [new] is the zero-argument constructor, [step] the
    method [step(self, graph)], which answers and may change the instance.
    By the engines' contract the graph handed to [step] is only read. *)
Record Engine : Type := mkEngine {
  instance : Type;
  new : call instance;
  step : instance -> Graph -> call Move * instance
}.

(** The engine operations the referee has invoked, oldest first.  Together
    with the exceptions handed to [game_logger.info] this is what an observer
    of a run sees besides the attributes of [Game]. *)
Inductive Invocation : Type :=
| NewCops
| NewRobber
| StepCops
| StepRobber.

(** A scripted engine: the instance holds the answers still to give, [step]
    gives the first of them whatever the graph; an exhausted script answers
    [None]. *)
Definition scripted (script : list (call Move)) : Engine :=
  mkEngine (list (call Move)) (Returns script)
           (fun answers _ =>
              match answers with
              | [] => (Returns None, [])
              | a :: answers' => (a, answers')
              end).

(** An engine class whose constructor raises. *)
Definition broken : Engine :=
  mkEngine unit Raises (fun u _ => (Raises, u)).

Definition plays (i j : Z) : call Move := Returns (Some (i, j)).

(** Scripts of concrete games. *)

(** A game that fills the board without a line. *)
Definition tie_cops : Engine :=
  scripted [plays 0 0; plays 0 2; plays 1 0; plays 2 1; plays 1 2].
Definition tie_robber : Engine :=
  scripted [plays 1 1; plays 0 1; plays 2 0; plays 2 2].

(** A game in which the last Cops move fills the board and completes the
    main diagonal. *)
Definition last_cell_cops : Engine :=
  scripted [plays 0 0; plays 0 2; plays 1 1; plays 2 1; plays 2 2].
Definition last_cell_robber : Engine :=
  scripted [plays 0 1; plays 1 0; plays 1 2; plays 2 0].

(** Cops take the main diagonal while Robber plays along the top row. *)
Definition diagonal_cops : Engine := scripted [plays 0 0; plays 1 1; plays 2 2].
Definition top_row_robber : Engine := scripted [plays 0 1; plays 0 2].

(** Robber takes the top row on the sixth ply; the play goes on, and the
    last Cops move fills the board and completes the middle row. *)
Definition late_row_cops : Engine :=
  scripted [plays 2 0; plays 1 0; plays 2 1; plays 1 1; plays 1 2].
Definition escaping_robber : Engine :=
  scripted [plays 0 0; plays 0 1; plays 0 2; plays 2 2].

Definition off_board_cops : Engine := scripted [plays 5 5].
Definition corner_cops : Engine := scripted [plays 0 0].
Definition raising_cops : Engine := scripted [Raises].
Definition silent_robber : Engine := scripted [Returns None].
Definition corner_robber : Engine := scripted [plays 0 0].
Definition centre_robber : Engine := scripted [plays 1 1].
Definition raising_robber : Engine := scripted [Raises].

(** ** Properties of a graph *)

(** [g] has the nodes and edges of the tic-tac-toe graph, in the order of
    construction; only its labels may differ. *)
Definition tictactoe_shaped (g : Graph) : Prop :=
  map fst (nodes g) = map fst (nodes __init_tictactoe_graph) /\
  adj g = adj __init_tictactoe_graph.

Definition line_nodes : list Node :=
  [Row 0; Row 1; Row 2; Col 0; Col 1; Col 2; Dia 0; Dia 1].

(** Every line node (row, column or diagonal) carries the blank label. *)
Definition lines_blank (g : Graph) : Prop :=
  forall v, In v line_nodes -> get_label g v = inr " ".

(** Node [w] carries exactly [label]. *)
Definition has_label (g : Graph) (label : string) (w : Node) : bool :=
  match get_label g w with
  | inr l => String.eqb l label
  | inl _ => false
  end.

(** The classic win check of tic-tac-toe in the words of the claim: the
    three rows, the three columns and the two diagonals of the 3x3 grid. *)
Definition eight_lines : list (list Node) :=
  [ [Cell 0 0; Cell 0 1; Cell 0 2];
    [Cell 1 0; Cell 1 1; Cell 1 2];
    [Cell 2 0; Cell 2 1; Cell 2 2];
    [Cell 0 0; Cell 1 0; Cell 2 0];
    [Cell 0 1; Cell 1 1; Cell 2 1];
    [Cell 0 2; Cell 1 2; Cell 2 2];
    [Cell 0 0; Cell 1 1; Cell 2 2];
    [Cell 0 2; Cell 1 1; Cell 2 0] ].

Definition classic_win (g : Graph) (label : string) : bool :=
  existsb (forallb (has_label g label)) eight_lines.

(** [self.graph.adj[v]], empty for a node without an entry. *)
Definition neighbours (g : Graph) (v : Node) : list Node :=
  match dict_get (adj g) v with
  | Some ws => ws
  | None => []
  end.

(** The uniform predicate: some node has its whole neighbour set labelled
    [label]. *)
Definition uniform_win (g : Graph) (label : string) : bool :=
  existsb (fun v => forallb (has_label g label) (neighbours g v)) (map fst (nodes g)).

Definition is_key (keys : list Node) (w : Node) : bool := existsb (Node_eqb w) keys.

Definition is_line (v : Node) : bool :=
  match v with
  | Cell _ _ => false
  | _ => true
  end.

Definition cells : list (Z * Z) :=
  flat_map (fun i => map (fun j => (i, j)) range3) range3.

(** A move the validation accepts on [g]: present, on the board, and aimed
    at a blank cell. *)
Definition valid_move (g : Graph) (move : Move) : bool :=
  match move with
  | None => false
  | Some (i, j) =>
      (0 <=? i) && (i <=? 2) && (0 <=? j) && (j <=? 2) && has_label g " " (Cell i j)
  end.

(** The number of cells of the grid that are still blank. *)
Definition blanks (g : Graph) : nat :=
  List.length
    (filter (fun c : Z * Z => has_label g " " (Cell (fst c) (snd c))) cells).

(** The number of cells of the grid that carry [label]. *)
Definition marks (g : Graph) (label : string) : nat :=
  List.length
    (filter (fun c : Z * Z => has_label g label (Cell (fst c) (snd c))) cells).

(** The label of a node, the empty string where there is none. *)
Definition label_of (g : Graph) (w : Node) : string :=
  match get_label g w with
  | inr l => l
  | inl _ => ""
  end.

(** The eight pairs of result and status that the outcome-setting methods
    can write, and the initial pair. *)
Definition outcomes : list (Z * string) :=
  [ (0, "Game continues");
    (-1, "Cops invalid step"); (1, "Robber invalid step");
    (-1, "Exception in cops call"); (1, "Exception in robber call");
    (1, "Robber caught"); (-1, "Robber escapes"); (-1, "Cops shift ends") ].

(** ** What [main.py] writes to its log *)

(** A record of [main_logger]: the three rows of the board, the line with
    result and status, or the line that names the winner.  The formatting of
    a record into text is left out; a record holds what is formatted. *)
Inductive LogRecord : Type :=
| BoardRows (row0 row1 row2 : list (Node * string))
| ResultLine (result : Z) (game_status : option string)
| Verdict (text : string).

(** [isinstance(x[0][0], int)] for an item [x] of [graph.nodes.data()]: the
    first component of the node is an [int] for a cell and a [str] for a
    line node. *)
Definition first_is_int (x : Node * string) : bool :=
  match fst x with
  | Cell _ _ => true
  | _ => false
  end.

(** The slice [l[a:b]]. *)
Definition slice {A : Type} (l : list A) (a b : nat) : list A :=
  firstn (b - a) (skipn a l).

(** The record logged in every pass of the loop of [main.py]. *)
Definition board_rows (g : Graph) : LogRecord :=
  let game_nodes := filter first_is_int (nodes g) in
  BoardRows (slice game_nodes 0 3) (slice game_nodes 3 6) (slice game_nodes 6 9).

(** Row [i] of the grid with its labels, left to right. *)
Definition grid_row (g : Graph) (i : Z) : list (Node * string) :=
  map (fun j => (Cell i j, label_of g (Cell i j))) range3.

(** The cell (i, j) lies on the row, column or diagonal [v]. *)
Definition lies_on (i j : Z) (v : Node) : bool :=
  match v with
  | Row r => r =? i
  | Col c => c =? j
  | Dia d => ((d =? 0) && (i =? j)) || ((d =? 1) && (i =? 2 - j))
  | Cell _ _ => false
  end.

(** ** The referee *)

Section Referee.

Variables cops_engine robber_engine : Engine.

(** The attributes of a [Game] object, followed by the two observations:
    [invoked], the engine operations called so far, and [logged], the
    exceptions written to the log.  [cops] and [robber] are [None] both for
    the Python value [None] and, for [robber], for the attribute that
    [__init__] never assigned: [.step] on either raises [AttributeError]. *)
Record Game : Type := mkGame {
  graph : Graph;
  __result : Z;
  __round : Z;
  __status : string;
  cops : option (instance cops_engine);
  robber : option (instance robber_engine);
  invoked : list Invocation;
  logged : list exn
}.

(** Methods of [Game]: they run on the object, change it in place, and
    either return or raise. *)
Definition M (A : Type) : Type := Game -> (exn + A) * Game.

Definition ret {A : Type} (a : A) : M A := fun self => (inr a, self).

Definition bind {A B : Type} (m : M A) (k : A -> M B) : M B :=
  fun self =>
    match m self with
    | (inl e, self') => (inl e, self')
    | (inr a, self') => k a self'
    end.

(** [try: body / except <catches> as e: handler] *)
Definition try_except {A : Type} (body : M A) (catches : exn -> bool)
           (handler : exn -> M A) : M A :=
  fun self =>
    match body self with
    | (inl e, self') => if catches e then handler e self' else (inl e, self')
    | (inr a, self') => (inr a, self')
    end.

(** An expression that reads the graph and may raise. *)
Definition eval {A : Type} (f : Graph -> exn + A) : M A :=
  fun self => (f (graph self), self).

Definition modify (f : Game -> Game) : M unit :=
  fun self => (inr tt, f self).

(** [if c: body] for an [int] condition. *)
Definition when (c : Z) (body : M unit) : M unit :=
  if c =? 0 then ret tt else body.

Notation "x <- m ;; k" := (bind m (fun x => k))
  (at level 61, m at next level, right associativity).
Notation "m ;; k" := (bind m (fun _ => k))
  (at level 61, right associativity).

(** [except Exception] catches every exception of the model,
    [except RuntimeError] only that one. *)
Definition Exception (e : exn) : bool := true.

Definition is_RuntimeError (e : exn) : bool :=
  match e with RuntimeError => true | _ => false end.

Definition with_graph (g : Graph) (self : Game) : Game :=
  mkGame g (__result self) (__round self) (__status self)
         (cops self) (robber self) (invoked self) (logged self).

Definition with_result (r : Z) (self : Game) : Game :=
  mkGame (graph self) r (__round self) (__status self)
         (cops self) (robber self) (invoked self) (logged self).

Definition with_round (n : Z) (self : Game) : Game :=
  mkGame (graph self) (__result self) n (__status self)
         (cops self) (robber self) (invoked self) (logged self).

Definition with_status (s : string) (self : Game) : Game :=
  mkGame (graph self) (__result self) (__round self) s
         (cops self) (robber self) (invoked self) (logged self).

Definition with_cops (c : option (instance cops_engine)) (self : Game) : Game :=
  mkGame (graph self) (__result self) (__round self) (__status self)
         c (robber self) (invoked self) (logged self).

Definition with_robber (r : option (instance robber_engine)) (self : Game) : Game :=
  mkGame (graph self) (__result self) (__round self) (__status self)
         (cops self) r (invoked self) (logged self).

Definition log_invocation (i : Invocation) (self : Game) : Game :=
  mkGame (graph self) (__result self) (__round self) (__status self)
         (cops self) (robber self) (invoked self ++ [i])%list (logged self).

(** [game_logger.info(traceback.format_exception(type(e), e, e.__traceback__))] *)
Definition note (e : exn) (self : Game) : Game :=
  mkGame (graph self) (__result self) (__round self) (__status self)
         (cops self) (robber self) (invoked self) (logged self ++ [e])%list.

(** *** The outcome latch *)

Definition __robber_win : M unit :=
  modify (fun self => if __result self =? 0 then with_result (-1) self else self).

Definition __cops_win : M unit :=
  modify (fun self => if __result self =? 0 then with_result 1 self else self).

Definition __set_status (status : string) : M unit :=
  modify (fun self =>
    if String.eqb (__status self) "Game continues" then with_status status self
    else self).

Definition __cops_three_in_a_row : M unit :=
  __cops_win ;; __set_status "Robber caught".

Definition __tie : M unit :=
  __robber_win ;; __set_status "Cops shift ends".

Definition __robber_three_in_a_row : M unit :=
  __robber_win ;; __set_status "Robber escapes".

Definition __cops_invalid_step : M unit :=
  __robber_win ;; __set_status "Cops invalid step".

Definition __robber_invalid_step : M unit :=
  __cops_win ;; __set_status "Robber invalid step".

Definition __cops_exception : M unit :=
  __robber_win ;; __set_status "Exception in cops call".

Definition __robber_exception : M unit :=
  __cops_win ;; __set_status "Exception in robber call".

Definition result (self : Game) : Z := __result self.

Definition status (self : Game) : string := __status self.

(** *** Move validation *)

(** [move[0] < 0 or move[1] < 0 or move[0] > 2 or move[1] > 2]; the label
    lookup that follows it in the source is evaluated only when this is
    false, as [or] short-circuits. *)
Definition off_board (move : Z * Z) : bool :=
  (fst move <? 0) || (snd move <? 0) || (fst move >? 2) || (snd move >? 2).

Definition __set_cop_positions (move : Move) : M unit :=
  match move with
  | None => __cops_invalid_step
  | Some (i, j) =>
      if off_board (i, j) then __cops_invalid_step
      else
        l <- eval (fun g => get_label g (Cell i j)) ;;
        if negb (String.eqb l " ") then __cops_invalid_step
        else
          g' <- eval (fun g => set_label g (Cell i j) "C") ;;
          modify (with_graph g')
  end.

Definition __set_robber_position (move : Move) : M unit :=
  match move with
  | None => __robber_invalid_step
  | Some (i, j) =>
      if off_board (i, j) then __robber_invalid_step
      else
        l <- eval (fun g => get_label g (Cell i j)) ;;
        if negb (String.eqb l " ") then __robber_invalid_step
        else
          g' <- eval (fun g => set_label g (Cell i j) "R") ;;
          modify (with_graph g')
  end.

(** *** Engine calls *)

(** [self.cops.step(self.graph)] *)
Definition call_cops_step : M Move :=
  fun self =>
    match cops self with
    | None => (inl AttributeError, self)
    | Some c =>
        let (answer, c') := step cops_engine c (graph self) in
        let self' := log_invocation StepCops (with_cops (Some c') self) in
        match answer with
        | Returns move => (inr move, self')
        | Raises => (inl EngineError, self')
        end
    end.

(** [self.robber.step(self.graph)] *)
Definition call_robber_step : M Move :=
  fun self =>
    match robber self with
    | None => (inl AttributeError, self)
    | Some r =>
        let (answer, r') := step robber_engine r (graph self) in
        let self' := log_invocation StepRobber (with_robber (Some r') self) in
        match answer with
        | Returns move => (inr move, self')
        | Raises => (inl EngineError, self')
        end
    end.

(** [cops_engine()] *)
Definition call_cops_engine : M (instance cops_engine) :=
  fun self =>
    let self' := log_invocation NewCops self in
    match new cops_engine with
    | Returns c => (inr c, self')
    | Raises => (inl EngineError, self')
    end.

(** [robber_engine()] *)
Definition call_robber_engine : M (instance robber_engine) :=
  fun self =>
    let self' := log_invocation NewRobber self in
    match new robber_engine with
    | Returns r => (inr r, self')
    | Raises => (inl EngineError, self')
    end.

(** *** Plies *)

Definition __robber_step : M unit :=
  robber_move <- try_except call_robber_step Exception
                   (fun e => modify (note e) ;; __robber_exception ;; ret None) ;;
  __set_robber_position robber_move ;;
  r <- eval (fun g => __three_in_a_row g "R") ;;
  when r __robber_three_in_a_row.

Definition __cops_step : M unit :=
  cop_move <- try_except call_cops_step Exception
                (fun e => modify (note e) ;; __cops_exception ;; ret None) ;;
  __set_cop_positions cop_move ;;
  c <- eval (fun g => __three_in_a_row g "C") ;;
  when c __cops_three_in_a_row ;;
  t <- eval __game_tied ;;
  when t __tie.

Definition next_round : M unit :=
  modify (fun self => with_round (__round self + 1) self) ;;
  r <- (fun self => (inr (__round self), self)) ;;
  if r mod 2 =? 0 then __cops_step else __robber_step.

(** *** Construction *)

Definition raise {A : Type} (e : exn) : M A := fun self => (inl e, self).

Definition __init_cops : M unit :=
  try_except (c <- call_cops_engine ;; modify (with_cops (Some c))) Exception
             (fun e => modify (note e) ;; __cops_exception ;; raise RuntimeError).

Definition __init_robber : M unit :=
  try_except (r <- call_robber_engine ;; modify (with_robber (Some r))) Exception
             (fun e => modify (note e) ;; __robber_exception ;; raise RuntimeError).

(** [__init__]; [returned] tells whether the first [except] clause left the
    constructor. *)
Definition __init__ : M unit :=
  modify (with_graph __init_tictactoe_graph) ;;
  modify (with_result 0) ;;
  modify (with_round (-1)) ;;
  modify (with_status "Game continues") ;;
  modify (with_cops None) ;;
  returned <- try_except (__init_cops ;; ret false) is_RuntimeError
                (fun _ => ret true) ;;
  if (returned : bool) then ret tt
  else
    modify (with_robber None) ;;
    try_except __init_robber is_RuntimeError (fun _ => ret tt).

(** The object before [__init__] has run: no attribute is meaningful yet. *)
Definition blank : Game := mkGame empty_graph 0 0 "" None None [] [].

(** [Game(cops_engine, robber_engine)]: the outcome of the constructor call
    and the object it built. *)
Definition Game_new : (exn + unit) * Game := __init__ blank.

(** [n] calls of [next_round] in a row. *)
Fixpoint rounds (n : nat) : M unit :=
  match n with
  | O => ret tt
  | S k => rounds k ;; next_round
  end.

(** The driver's view: construct, then call [next_round] [n] times. *)
Definition play (n : nat) : (exn + unit) * Game :=
  match Game_new with
  | (inl e, self) => (inl e, self)
  | (inr _, self) => rounds n self
  end.

(** *** Whose ply is next, and what its engine answers *)

(** The next call of [next_round] runs [__cops_step]. *)
Definition cops_turn (self : Game) : bool := (__round self + 1) mod 2 =? 0.

(** What [self.cops.step(self.graph)] answers in the state [self], if there
    is a Cops instance. *)
Definition cops_answer (self : Game) : option (call Move) :=
  option_map (fun c => fst (step cops_engine c (graph self))) (cops self).

Definition robber_answer (self : Game) : option (call Move) :=
  option_map (fun r => fst (step robber_engine r (graph self))) (robber self).

(** The game after construction and [n] rounds. *)
Definition after (n : nat) : Game := snd (play n).

(** *** The plies as state transformers

    The functions below say in one expression what the methods above do to
    a game whose graph is tic-tac-toe shaped; the lemmas [*_runs] prove it. *)

(** An outcome-setting operation: [__robber_win] or [__cops_win] with
    [r = -1] or [r = 1], then [__set_status s]. *)
Definition settle (r : Z) (s : string) (self : Game) : Game :=
  let self' := if __result self =? 0 then with_result r self else self in
  if String.eqb (__status self') "Game continues" then with_status s self' else self'.

(** The [try] statement of [__cops_step]: the move bound to [cop_move] and
    the game after it. *)
Definition cops_called (self : Game) : Move * Game :=
  match cops self with
  | None => (None, settle (-1) "Exception in cops call" (note AttributeError self))
  | Some c =>
      let self' := log_invocation StepCops
                     (with_cops (Some (snd (step cops_engine c (graph self)))) self) in
      match fst (step cops_engine c (graph self)) with
      | Returns move => (move, self')
      | Raises => (None, settle (-1) "Exception in cops call" (note EngineError self'))
      end
  end.

Definition robber_called (self : Game) : Move * Game :=
  match robber self with
  | None => (None, settle 1 "Exception in robber call" (note AttributeError self))
  | Some r =>
      let self' := log_invocation StepRobber
                     (with_robber (Some (snd (step robber_engine r (graph self)))) self) in
      match fst (step robber_engine r (graph self)) with
      | Returns move => (move, self')
      | Raises => (None, settle 1 "Exception in robber call" (note EngineError self'))
      end
  end.

(** The graph with [mark] written on the cell a move names. *)
Definition marked (g : Graph) (mark : string) (move : Move) : Graph :=
  match move with
  | Some (i, j) => mkGraph (dict_set (nodes g) (Cell i j) mark) (adj g)
  | None => g
  end.

(** Validation of a move: a valid one is marked, any other settles the game
    for the other side. *)
Definition placed (mark : string) (r : Z) (s : string) (move : Move) (self : Game)
  : Game :=
  if valid_move (graph self) move then with_graph (marked (graph self) mark move) self
  else settle r s self.

(** The checks that end [__cops_step]: three-in-a-row first, then the tie. *)
Definition cops_checked (self : Game) : Game :=
  let self' := if uniform_win (graph self) "C" then settle 1 "Robber caught" self
               else self in
  if (blanks (graph self') =? 0)%nat then settle (-1) "Cops shift ends" self' else self'.

(** The check that ends [__robber_step]. *)
Definition robber_checked (self : Game) : Game :=
  if uniform_win (graph self) "R" then settle (-1) "Robber escapes" self else self.

Definition cops_ply (self : Game) : Game :=
  cops_checked
    (placed "C" (-1) "Cops invalid step" (fst (cops_called self)) (snd (cops_called self))).

Definition robber_ply (self : Game) : Game :=
  robber_checked
    (placed "R" 1 "Robber invalid step" (fst (robber_called self))
            (snd (robber_called self))).

Definition round_played (self : Game) : Game :=
  let self' := with_round (__round self + 1) self in
  if __round self' mod 2 =? 0 then cops_ply self' else robber_ply self'.

(** The attributes as the first lines of [__init__] set them. *)
Definition fresh : Game :=
  mkGame __init_tictactoe_graph 0 (-1) "Game continues" None None [] [].

(** The game that [__init__] leaves behind. *)
Definition constructed : Game :=
  match new cops_engine with
  | Raises => settle (-1) "Exception in cops call"
                     (note EngineError (log_invocation NewCops fresh))
  | Returns c =>
      let self := with_cops (Some c) (log_invocation NewCops fresh) in
      match new robber_engine with
      | Raises => settle 1 "Exception in robber call"
                         (note EngineError (log_invocation NewRobber self))
      | Returns r => with_robber (Some r) (log_invocation NewRobber self)
      end
  end.

(** The two latches agree: the result is 0 exactly when the status is the
    initial one. *)
Definition coherent (self : Game) : Prop :=
  __result self = 0 <-> __status self = "Game continues".

(** Both latches have fired. *)
Definition decided (self : Game) : Prop :=
  __result self <> 0 /\ __status self <> "Game continues".

(** What a method may do to the outcome: keep the two latches coherent, and
    leave a decided outcome alone. *)
Definition respects_latch (self self' : Game) : Prop :=
  (coherent self -> coherent self') /\
  (decided self -> __result self' = __result self /\ __status self' = __status self).

(** The engine whose ply is next answers with a move that is valid on the
    current graph. *)
Definition answers_validly (self : Game) : Prop :=
  exists move,
    (if cops_turn self then cops_answer self else robber_answer self)
    = Some (Returns move) /\
    valid_move (graph self) move = true.

(** Neither mark fills the neighbour set of any node. *)
Definition no_line (self : Game) : Prop :=
  __three_in_a_row (graph self) "C" = inr 0 /\
  __three_in_a_row (graph self) "R" = inr 0.

(** *** The driver, [main.py]

    [Cops] and [Robber], which [main.py] imports, are the two engine classes
    of this section. *)







(** The mark that the side to move writes. *)
Definition mover_mark (self : Game) : string :=
  if cops_turn self then "C" else "R".

(** The two latches agree and the outcome is one of the listed pairs. *)
Definition sound (self : Game) : Prop :=
  coherent self /\ In (__result self, __status self) outcomes.

(** ** Facts about dictionaries and the graph *)

Lemma Node_eqb_eq (u v : Node) : Node_eqb u v = true <-> u = v.
Proof.
  destruct u, v; simpl; split; intro H; try discriminate; try congruence.
  - apply andb_true_iff in H as [H1 H2].
    apply Z.eqb_eq in H1, H2. now subst.
  - inversion H; subst. now rewrite !Z.eqb_refl.
  - apply Z.eqb_eq in H. now subst.
  - inversion H. apply Z.eqb_refl.
  - apply Z.eqb_eq in H. now subst.
  - inversion H. apply Z.eqb_refl.
  - apply Z.eqb_eq in H. now subst.
  - inversion H. apply Z.eqb_refl.
Qed.

Lemma Node_eqb_refl (u : Node) : Node_eqb u u = true.
Proof. now apply Node_eqb_eq. Qed.

Lemma dict_get_key {V : Type} (d : list (Node * V)) (k : Node) :
  is_key (map fst d) k = true -> exists v, dict_get d k = Some v.
Proof.
  induction d as [|[k' v'] d IH]; simpl; [discriminate|].
  destruct (Node_eqb k k'); simpl; eauto.
Qed.

Lemma dict_set_keys {V : Type} (d : list (Node * V)) (k : Node) (v : V) :
  is_key (map fst d) k = true -> map fst (dict_set d k v) = map fst d.
Proof.
  induction d as [|[k' v'] d IH]; simpl; [discriminate|].
  destruct (Node_eqb k k'); simpl; intro H; [reflexivity|].
  now rewrite IH.
Qed.

Lemma dict_get_set {V : Type} (d : list (Node * V)) (k k' : Node) (v : V) :
  dict_get (dict_set d k v) k' = if Node_eqb k' k then Some v else dict_get d k'.
Proof.
  induction d as [|[k0 v0] d IH]; simpl.
  - reflexivity.
  - destruct (Node_eqb k k0) eqn:E; simpl.
    + apply Node_eqb_eq in E; subst k0.
      now destruct (Node_eqb k' k).
    + destruct (Node_eqb k' k0) eqn:E0.
      * apply Node_eqb_eq in E0; subst k0.
        destruct (Node_eqb k' k) eqn:E1; [|reflexivity].
        apply Node_eqb_eq in E1; subst k'.
        now rewrite Node_eqb_refl in E.
      * exact IH.
Qed.

Lemma get_label_marked (g : Graph) (mark : string) (i j : Z) (w : Node) :
  get_label (marked g mark (Some (i, j))) w =
  if Node_eqb w (Cell i j) then inr mark else get_label g w.
Proof.
  unfold get_label; simpl. rewrite dict_get_set.
  now destruct (Node_eqb w (Cell i j)).
Qed.

Lemma has_label_marked (g : Graph) (mark label : string) (i j : Z) (w : Node) :
  has_label (marked g mark (Some (i, j))) label w =
  if Node_eqb w (Cell i j) then String.eqb mark label else has_label g label w.
Proof.
  unfold has_label. rewrite get_label_marked.
  now destruct (Node_eqb w (Cell i j)).
Qed.

Lemma neighbours_loop_forallb (g : Graph) (label : string) (ws : list Node) :
  forallb (is_key (map fst (nodes g))) ws = true ->
  forall win, neighbours_loop g label ws win =
              inr (win && forallb (has_label g label) ws).
Proof.
  induction ws as [|w ws IH]; simpl; intros H win.
  - now rewrite andb_true_r.
  - apply andb_true_iff in H as [Hw Hws].
    unfold has_label at 1, get_label.
    destruct (dict_get_key _ _ Hw) as [l ->].
    rewrite (IH Hws). f_equal.
    destruct (String.eqb l label), win; reflexivity.
Qed.

Lemma nodes_loop_existsb (g : Graph) (label : string) (vs : list Node) :
  forallb (fun v => match dict_get (adj g) v with
                    | Some ws => forallb (is_key (map fst (nodes g))) ws
                    | None => false
                    end) vs = true ->
  nodes_loop g label vs =
  inr (if existsb (fun v => forallb (has_label g label) (neighbours g v)) vs
       then 1 else 0).
Proof.
  induction vs as [|v vs IH]; simpl; intro H; [reflexivity|].
  apply andb_true_iff in H as [Hv Hvs].
  unfold get_adj, neighbours at 1.
  destruct (dict_get (adj g) v) as [ws|]; [|discriminate].
  rewrite (neighbours_loop_forallb _ _ _ Hv). simpl.
  destruct (forallb (has_label g label) ws); simpl; [reflexivity|].
  exact (IH Hvs).
Qed.

Lemma three_in_a_row_uniform (g : Graph) (label : string) :
  tictactoe_shaped g ->
  __three_in_a_row g label = inr (if uniform_win g label then 1 else 0).
Proof.
  intros [Hk Ha]. unfold __three_in_a_row, uniform_win.
  apply nodes_loop_existsb. rewrite Hk, Ha. reflexivity.
Qed.

Lemma shaped_init : tictactoe_shaped __init_tictactoe_graph.
Proof. split; reflexivity. Qed.

Lemma on_board_cases (i j : Z) :
  (0 <=? i) && (i <=? 2) && (0 <=? j) && (j <=? 2) = true ->
  In (i, j) cells.
Proof.
  intro H. repeat (apply andb_true_iff in H as [H ?]).
  assert (Hi : i = 0 \/ i = 1 \/ i = 2) by lia.
  assert (Hj : j = 0 \/ j = 1 \/ j = 2) by lia.
  destruct Hi as [->|[->| ->]], Hj as [->|[->| ->]]; simpl; tauto.
Qed.

Lemma off_board_spec (i j : Z) :
  off_board (i, j) = negb ((0 <=? i) && (i <=? 2) && (0 <=? j) && (j <=? 2)).
Proof.
  unfold off_board; simpl.
  destruct (Z.ltb_spec i 0), (Z.ltb_spec j 0), (Z.gtb_spec i 2), (Z.gtb_spec j 2),
    (Z.leb_spec 0 i), (Z.leb_spec i 2), (Z.leb_spec 0 j), (Z.leb_spec j 2);
    simpl; try reflexivity; lia.
Qed.

Lemma cell_is_key (g : Graph) (i j : Z) :
  tictactoe_shaped g -> In (i, j) cells ->
  is_key (map fst (nodes g)) (Cell i j) = true.
Proof.
  intros [Hk _] H. rewrite Hk.
  vm_compute in H.
  repeat (destruct H as [H|H]; [inversion H; subst; reflexivity|]).
  contradiction.
Qed.

Lemma shaped_marked (g : Graph) (mark : string) (i j : Z) :
  tictactoe_shaped g -> In (i, j) cells ->
  tictactoe_shaped (marked g mark (Some (i, j))).
Proof.
  intros Hs H. pose proof (cell_is_key _ _ _ Hs H) as Hkey.
  destruct Hs as [Hk Ha]. split; cbn [marked nodes adj]; [|exact Ha].
  now rewrite dict_set_keys.
Qed.

Lemma tied_loop_existsb (g : Graph) (cs : list (Z * Z)) :
  (forall c, In c cs -> is_key (map fst (nodes g)) (Cell (fst c) (snd c)) = true) ->
  tied_loop g cs =
  inr (if existsb (fun c => has_label g " " (Cell (fst c) (snd c))) cs then 0 else 1).
Proof.
  induction cs as [|[i j] cs IH]; simpl; intro H; [reflexivity|].
  pose proof (H (i, j) (or_introl eq_refl)) as Hk. cbn [fst snd] in Hk.
  unfold has_label at 1, get_label.
  destruct (dict_get_key _ _ Hk) as [l ->].
  destruct (String.eqb l " "); simpl; [reflexivity|].
  apply IH. intros c Hc. apply H. now right.
Qed.

Lemma filter_nil_existsb {A : Type} (f : A -> bool) (l : list A) :
  (List.length (filter f l) =? 0)%nat = negb (existsb f l).
Proof.
  induction l as [|a l IH]; simpl; [reflexivity|].
  destruct (f a); simpl; [reflexivity | exact IH].
Qed.

Lemma game_tied_blanks (g : Graph) :
  tictactoe_shaped g ->
  __game_tied g = inr (if (blanks g =? 0)%nat then 1 else 0).
Proof.
  intro Hs. unfold __game_tied, blanks. fold cells.
  rewrite tied_loop_existsb.
  - rewrite filter_nil_existsb.
    now destruct (existsb _ cells).
  - intros [i j] Hc. now apply cell_is_key.
Qed.

Lemma filter_one_less {A : Type} (f f' : A -> bool) (x : A) (l : list A) :
  NoDup l -> In x l -> f x = true -> f' x = false ->
  (forall y, y <> x -> f' y = f y) ->
  List.length (filter f l) = S (List.length (filter f' l)).
Proof.
  intros Hnd Hin Hx Hx' Hother. induction l as [|a l IH]; [contradiction|].
  inversion Hnd as [|? ? Hnotin Hnd']; subst. simpl.
  destruct Hin as [->|Hin].
  - rewrite Hx, Hx'. simpl. f_equal.
    clear IH Hnd. induction l as [|b l IHl]; [reflexivity|].
    inversion Hnd' as [|? ? Hb Hl]; subst. simpl.
    rewrite (Hother b) by (intros ->; apply Hnotin; now left).
    destruct (f b); simpl; [f_equal|]; apply IHl; auto;
      intro H; apply Hnotin; now right.
  - assert (Ha : a <> x) by (intros ->; contradiction).
    rewrite (Hother a Ha).
    destruct (f a); simpl; [f_equal|]; now apply IH.
Qed.

Lemma cells_NoDup : NoDup cells.
Proof.
  unfold cells, range3. simpl.
  repeat (constructor; [simpl; intuition discriminate|]). constructor.
Qed.

Lemma blanks_marked (g : Graph) (mark : string) (move : Move) :
  valid_move g move = true -> String.eqb mark " " = false ->
  blanks g = S (blanks (marked g mark move)).
Proof.
  intros Hv Hm. destruct move as [[i j]|]; [|discriminate].
  unfold valid_move in Hv. apply andb_true_iff in Hv as [Hb Hl].
  unfold blanks.
  apply (filter_one_less _ _ (i, j)).
  - exact cells_NoDup.
  - now apply on_board_cases.
  - exact Hl.
  - cbn [fst snd]. now rewrite has_label_marked, Node_eqb_refl.
  - intros [i' j'] Hne. cbn [fst snd]. rewrite has_label_marked.
    destruct (Node_eqb (Cell i' j') (Cell i j)) eqn:E; [|reflexivity].
    apply Node_eqb_eq in E. inversion E; subst. now destruct Hne.
Qed.

Lemma uniform_is_classic (g : Graph) (label : string) :
  tictactoe_shaped g -> lines_blank g -> label <> " " ->
  uniform_win g label = classic_win g label.
Proof.
  intros [Hk Ha] Hb Hl.
  assert (Hline : forall v, In v line_nodes -> has_label g label v = false).
  { intros v Hv. unfold has_label. rewrite (Hb v Hv).
    apply String.eqb_neq. congruence. }
  unfold uniform_win, classic_win, neighbours. rewrite Hk, Ha.
  revert Hline. generalize (has_label g label). intros h Hline.
  pose proof (Hline (Row 0) ltac:(simpl; tauto)) as R0.
  pose proof (Hline (Row 1) ltac:(simpl; tauto)) as R1.
  pose proof (Hline (Row 2) ltac:(simpl; tauto)) as R2.
  pose proof (Hline (Col 0) ltac:(simpl; tauto)) as C0.
  pose proof (Hline (Col 1) ltac:(simpl; tauto)) as C1.
  pose proof (Hline (Col 2) ltac:(simpl; tauto)) as C2.
  pose proof (Hline (Dia 0) ltac:(simpl; tauto)) as D0.
  pose proof (Hline (Dia 1) ltac:(simpl; tauto)) as D1.
  clear Hline. vm_compute.
  rewrite R0, R1, R2, ?C0, ?C1, ?C2, ?D0, ?D1.
  destruct (h (Cell 0 0)), (h (Cell 0 1)), (h (Cell 0 2)),
           (h (Cell 1 0)), (h (Cell 1 1)), (h (Cell 1 2)),
           (h (Cell 2 0)), (h (Cell 2 1)), (h (Cell 2 2)); reflexivity.
Qed.

Lemma lines_blank_init : lines_blank __init_tictactoe_graph.
Proof.
  intros v Hv. simpl in Hv.
  repeat (destruct Hv as [<-|Hv]; [reflexivity|]). contradiction.
Qed.

Lemma lines_blank_marked (g : Graph) (mark : string) (i j : Z) :
  lines_blank g -> lines_blank (marked g mark (Some (i, j))).
Proof.
  intros Hb v Hv. rewrite get_label_marked.
  replace (Node_eqb v (Cell i j)) with false; [now apply Hb|].
  simpl in Hv.
  repeat (destruct Hv as [<-|Hv]; [reflexivity|]). contradiction.
Qed.

(** ** The methods run as the state transformers say *)

Lemma settle_frame (r : Z) (s : string) (self : Game) :
  graph (settle r s self) = graph self /\
  __round (settle r s self) = __round self /\
  cops (settle r s self) = cops self /\
  robber (settle r s self) = robber self /\
  invoked (settle r s self) = invoked self /\
  logged (settle r s self) = logged self.
Proof.
  unfold settle.
  destruct (__result self =? 0); cbn [__status with_result];
    destruct (String.eqb (__status self) "Game continues"); repeat split.
Qed.

Lemma settle_graph (r : Z) (s : string) (self : Game) :
  graph (settle r s self) = graph self.
Proof. apply settle_frame. Qed.

Lemma robber_win_then_status (s : string) (self : Game) :
  (__robber_win ;; __set_status s) self = (inr tt, settle (-1) s self).
Proof. reflexivity. Qed.

Lemma cops_win_then_status (s : string) (self : Game) :
  (__cops_win ;; __set_status s) self = (inr tt, settle 1 s self).
Proof. reflexivity. Qed.

Lemma cops_try_runs (self : Game) :
  try_except call_cops_step Exception
             (fun e => modify (note e) ;; __cops_exception ;; ret None) self =
  (inr (fst (cops_called self)), snd (cops_called self)).
Proof.
  unfold try_except, call_cops_step, cops_called.
  destruct (cops self) as [c|]; [|reflexivity].
  destruct (step cops_engine c (graph self)) as [[move|] c']; reflexivity.
Qed.

Lemma robber_try_runs (self : Game) :
  try_except call_robber_step Exception
             (fun e => modify (note e) ;; __robber_exception ;; ret None) self =
  (inr (fst (robber_called self)), snd (robber_called self)).
Proof.
  unfold try_except, call_robber_step, robber_called.
  destruct (robber self) as [r|]; [|reflexivity].
  destruct (step robber_engine r (graph self)) as [[move|] r']; reflexivity.
Qed.

Lemma cops_called_graph (self : Game) : graph (snd (cops_called self)) = graph self.
Proof.
  unfold cops_called. destruct (cops self) as [c|]; cbn [snd].
  - destruct (fst (step cops_engine c (graph self))); cbn [snd];
      rewrite ?settle_graph; reflexivity.
  - now rewrite settle_graph.
Qed.

Lemma robber_called_graph (self : Game) : graph (snd (robber_called self)) = graph self.
Proof.
  unfold robber_called. destruct (robber self) as [r|]; cbn [snd].
  - destruct (fst (step robber_engine r (graph self))); cbn [snd];
      rewrite ?settle_graph; reflexivity.
  - now rewrite settle_graph.
Qed.

Lemma set_cop_positions_runs (move : Move) (self : Game) :
  tictactoe_shaped (graph self) ->
  __set_cop_positions move self =
  (inr tt, placed "C" (-1) "Cops invalid step" move self).
Proof.
  intro Hs. unfold __set_cop_positions, placed, valid_move.
  destruct move as [[i j]|]; [|reflexivity].
  rewrite off_board_spec.
  destruct ((0 <=? i) && (i <=? 2) && (0 <=? j) && (j <=? 2)) eqn:Hb;
    cbn [negb andb]; [|reflexivity].
  pose proof (cell_is_key _ _ _ Hs (on_board_cases _ _ Hb)) as Hkey.
  destruct (dict_get_key _ _ Hkey) as [l Hl].
  unfold bind, eval, has_label, get_label, set_label. rewrite Hl.
  destruct (String.eqb l " "); cbn [negb andb]; [rewrite Hl|]; reflexivity.
Qed.

Lemma set_robber_position_runs (move : Move) (self : Game) :
  tictactoe_shaped (graph self) ->
  __set_robber_position move self =
  (inr tt, placed "R" 1 "Robber invalid step" move self).
Proof.
  intro Hs. unfold __set_robber_position, placed, valid_move.
  destruct move as [[i j]|]; [|reflexivity].
  rewrite off_board_spec.
  destruct ((0 <=? i) && (i <=? 2) && (0 <=? j) && (j <=? 2)) eqn:Hb;
    cbn [negb andb]; [|reflexivity].
  pose proof (cell_is_key _ _ _ Hs (on_board_cases _ _ Hb)) as Hkey.
  destruct (dict_get_key _ _ Hkey) as [l Hl].
  unfold bind, eval, has_label, get_label, set_label. rewrite Hl.
  destruct (String.eqb l " "); cbn [negb andb]; [rewrite Hl|]; reflexivity.
Qed.

Lemma placed_shaped (mark : string) (r : Z) (s : string) (move : Move) (self : Game) :
  tictactoe_shaped (graph self) ->
  tictactoe_shaped (graph (placed mark r s move self)).
Proof.
  intro Hs. unfold placed.
  destruct (valid_move (graph self) move) eqn:Hv.
  - destruct move as [[i j]|]; [|discriminate].
    cbn [with_graph graph]. apply shaped_marked; [exact Hs|].
    apply on_board_cases. unfold valid_move in Hv.
    now apply andb_true_iff in Hv as [Hv _].
  - now rewrite settle_graph.
Qed.

Lemma cops_ply_shaped (self : Game) :
  tictactoe_shaped (graph self) -> tictactoe_shaped (graph (cops_ply self)).
Proof.
  intro Hs. unfold cops_ply, cops_checked.
  repeat match goal with
         | |- context [if ?b then _ else _] => destruct b
         end;
    rewrite ?settle_graph; apply placed_shaped; now rewrite cops_called_graph.
Qed.

Lemma robber_ply_shaped (self : Game) :
  tictactoe_shaped (graph self) -> tictactoe_shaped (graph (robber_ply self)).
Proof.
  intro Hs. unfold robber_ply, robber_checked.
  repeat match goal with
         | |- context [if ?b then _ else _] => destruct b
         end;
    rewrite ?settle_graph; apply placed_shaped; now rewrite robber_called_graph.
Qed.

Lemma cops_step_runs (self : Game) :
  tictactoe_shaped (graph self) -> __cops_step self = (inr tt, cops_ply self).
Proof.
  intro Hs. unfold __cops_step, cops_ply, cops_checked.
  unfold bind at 1. rewrite cops_try_runs.
  assert (Hs1 : tictactoe_shaped (graph (snd (cops_called self))))
    by now rewrite cops_called_graph.
  unfold bind at 1. rewrite (set_cop_positions_runs _ _ Hs1).
  set (self2 := placed "C" (-1) "Cops invalid step" _ _).
  assert (Hs2 : tictactoe_shaped (graph self2)) by now apply placed_shaped.
  unfold bind at 1, eval at 1. rewrite (three_in_a_row_uniform _ _ Hs2).
  unfold bind at 1.
  assert (Hc : when (if uniform_win (graph self2) "C" then 1 else 0)
                    __cops_three_in_a_row self2 =
               (inr tt, if uniform_win (graph self2) "C"
                        then settle 1 "Robber caught" self2 else self2))
    by (destruct (uniform_win (graph self2) "C"); reflexivity).
  rewrite Hc.
  set (self3 := if uniform_win _ _ then _ else _).
  assert (Hs3 : tictactoe_shaped (graph self3))
    by (subst self3; destruct (uniform_win _ _); rewrite ?settle_graph; exact Hs2).
  unfold bind, eval. rewrite (game_tied_blanks _ Hs3).
  destruct (blanks (graph self3) =? 0)%nat; reflexivity.
Qed.

Lemma robber_step_runs (self : Game) :
  tictactoe_shaped (graph self) -> __robber_step self = (inr tt, robber_ply self).
Proof.
  intro Hs. unfold __robber_step, robber_ply, robber_checked.
  unfold bind at 1. rewrite robber_try_runs.
  assert (Hs1 : tictactoe_shaped (graph (snd (robber_called self))))
    by now rewrite robber_called_graph.
  unfold bind at 1. rewrite (set_robber_position_runs _ _ Hs1).
  set (self2 := placed "R" 1 "Robber invalid step" _ _).
  assert (Hs2 : tictactoe_shaped (graph self2)) by now apply placed_shaped.
  unfold bind, eval. rewrite (three_in_a_row_uniform _ _ Hs2).
  destruct (uniform_win (graph self2) "R"); reflexivity.
Qed.

Lemma next_round_runs (self : Game) :
  tictactoe_shaped (graph self) -> next_round self = (inr tt, round_played self).
Proof.
  intro Hs. unfold next_round, round_played.
  unfold bind, modify. cbn [__round with_round].
  destruct ((__round self + 1) mod 2 =? 0).
  - now apply cops_step_runs.
  - now apply robber_step_runs.
Qed.

Lemma round_played_shaped (self : Game) :
  tictactoe_shaped (graph self) -> tictactoe_shaped (graph (round_played self)).
Proof.
  intro Hs. unfold round_played.
  destruct (_ =? 0); [apply cops_ply_shaped | apply robber_ply_shaped]; exact Hs.
Qed.

(** ** Construction and the reachable games *)

Lemma Game_new_runs : Game_new = (inr tt, constructed).
Proof.
  unfold Game_new, constructed, __init__, __init_cops, __init_robber,
    call_cops_engine, call_robber_engine.
  unfold bind, try_except, modify, ret, raise.
  cbn -[__init_tictactoe_graph].
  destruct (new cops_engine) as [c|]; cbn -[__init_tictactoe_graph].
  - destruct (new robber_engine) as [r|]; reflexivity.
  - reflexivity.
Qed.

Lemma constructed_shaped : tictactoe_shaped (graph constructed).
Proof.
  unfold constructed.
  destruct (new cops_engine); [destruct (new robber_engine)|];
    rewrite ?settle_graph; exact shaped_init.
Qed.

Lemma after_0 : after 0 = constructed.
Proof. unfold after, play. now rewrite Game_new_runs. Qed.

Lemma rounds_run (n : nat) (self : Game) :
  tictactoe_shaped (graph self) ->
  exists self', rounds n self = (inr tt, self') /\ tictactoe_shaped (graph self') /\
                rounds (S n) self = (inr tt, round_played self').
Proof.
  intro Hs. induction n as [|n (self' & Hr & Hs' & Hn)].
  - exists self. split; [reflexivity|]. split; [exact Hs|].
    cbn [rounds]. unfold bind, ret. now apply next_round_runs.
  - exists (round_played self'). split; [exact Hn|].
    split; [now apply round_played_shaped|].
    change (rounds (S (S n))) with (bind (rounds (S n)) (fun _ => next_round)).
    unfold bind at 1. rewrite Hn.
    apply next_round_runs. now apply round_played_shaped.
Qed.

Lemma play_runs (n : nat) :
  play n = (inr tt, after n) /\ tictactoe_shaped (graph (after n)) /\
  after (S n) = round_played (after n).
Proof.
  destruct (rounds_run n constructed constructed_shaped) as (self' & Hr & Hs & Hn).
  unfold after, play. rewrite Game_new_runs, Hr, Hn.
  split; [reflexivity|]. split; [exact Hs | reflexivity].
Qed.

Lemma after_shaped (n : nat) : tictactoe_shaped (graph (after n)).
Proof. apply play_runs. Qed.

Lemma after_S (n : nat) : after (S n) = round_played (after n).
Proof. apply play_runs. Qed.

(** ** The latch *)

Lemma settle_result (r : Z) (s : string) (self : Game) :
  __result (settle r s self) = if __result self =? 0 then r else __result self.
Proof.
  unfold settle.
  destruct (__result self =? 0); cbn [__status with_result];
    destruct (String.eqb (__status self) "Game continues"); reflexivity.
Qed.

Lemma settle_status (r : Z) (s : string) (self : Game) :
  __status (settle r s self) =
  if String.eqb (__status self) "Game continues" then s else __status self.
Proof.
  unfold settle.
  destruct (__result self =? 0); cbn [__status with_result];
    destruct (String.eqb (__status self) "Game continues"); reflexivity.
Qed.

Lemma settle_decided (r : Z) (s : string) (self : Game) :
  decided self -> settle r s self = self.
Proof.
  intros [Hr Hst]. unfold settle.
  apply Z.eqb_neq in Hr. rewrite Hr.
  apply String.eqb_neq in Hst. now rewrite Hst.
Qed.

Lemma settle_continuing (r : Z) (s : string) (self : Game) :
  __result self = 0 -> __status self = "Game continues" ->
  __result (settle r s self) = r /\ __status (settle r s self) = s.
Proof.
  intros Hr Hst. rewrite settle_result, settle_status, Hr, Hst. now split.
Qed.

Lemma settle_coherent (r : Z) (s : string) (self : Game) :
  r <> 0 -> s <> "Game continues" -> coherent self -> coherent (settle r s self).
Proof.
  unfold coherent. intros Hr Hs [H1 H2].
  rewrite settle_result, settle_status.
  destruct (Z.eqb_spec (__result self) 0) as [E|E].
  - rewrite (H1 E). cbn. split; intro; contradiction.
  - destruct (String.eqb_spec (__status self) "Game continues") as [E'|E'].
    + now apply H2 in E'.
    + split; intro; contradiction.
Qed.

Lemma respects_refl (self : Game) : respects_latch self self.
Proof. split; auto. Qed.

Lemma respects_trans (a b c : Game) :
  respects_latch a b -> respects_latch b c -> respects_latch a c.
Proof.
  intros [H1 H2] [H3 H4]. split; [auto|].
  intro Hd. destruct (H2 Hd) as [Er Es].
  assert (Hb : decided b) by (destruct Hd; split; congruence).
  destruct (H4 Hb). split; congruence.
Qed.

Lemma respects_same (self self' : Game) :
  __result self' = __result self -> __status self' = __status self ->
  respects_latch self self'.
Proof.
  intros Er Es. split; [|auto].
  unfold coherent. now rewrite Er, Es.
Qed.

Lemma respects_settle (r : Z) (s : string) (self : Game) :
  r <> 0 -> s <> "Game continues" -> respects_latch self (settle r s self).
Proof.
  intros Hr Hs. split.
  - now apply settle_coherent.
  - intro Hd. now rewrite settle_decided.
Qed.

Lemma neq_continues (s : string) :
  String.eqb s "Game continues" = false -> s <> "Game continues".
Proof. apply String.eqb_neq. Qed.

Ltac chain mid := apply respects_trans with (b := mid).

Lemma respects_cops_called (self : Game) :
  respects_latch self (snd (cops_called self)).
Proof.
  unfold cops_called. destruct (cops self) as [c|]; cbn [snd].
  - set (self' := log_invocation _ _).
    assert (H : respects_latch self self') by (apply respects_same; reflexivity).
    destruct (fst (step cops_engine c (graph self))); cbn [snd]; [exact H|].
    chain (note EngineError self'); [apply respects_same; reflexivity|].
    apply respects_settle; [lia | now apply neq_continues].
  - chain (note AttributeError self); [apply respects_same; reflexivity|].
    apply respects_settle; [lia | now apply neq_continues].
Qed.

Lemma respects_robber_called (self : Game) :
  respects_latch self (snd (robber_called self)).
Proof.
  unfold robber_called. destruct (robber self) as [r|]; cbn [snd].
  - set (self' := log_invocation _ _).
    assert (H : respects_latch self self') by (apply respects_same; reflexivity).
    destruct (fst (step robber_engine r (graph self))); cbn [snd]; [exact H|].
    chain (note EngineError self'); [apply respects_same; reflexivity|].
    apply respects_settle; [lia | now apply neq_continues].
  - chain (note AttributeError self); [apply respects_same; reflexivity|].
    apply respects_settle; [lia | now apply neq_continues].
Qed.

Lemma respects_placed (mark : string) (r : Z) (s : string) (move : Move) (self : Game) :
  r <> 0 -> s <> "Game continues" -> respects_latch self (placed mark r s move self).
Proof.
  intros Hr Hs. unfold placed. destruct (valid_move (graph self) move).
  - apply respects_same; reflexivity.
  - now apply respects_settle.
Qed.

Lemma respects_if_settle (b : bool) (r : Z) (s : string) (self : Game) :
  r <> 0 -> s <> "Game continues" ->
  respects_latch self (if b then settle r s self else self).
Proof. intros Hr Hs. destruct b; [now apply respects_settle | apply respects_refl]. Qed.

Lemma respects_cops_ply (self : Game) : respects_latch self (cops_ply self).
Proof.
  unfold cops_ply, cops_checked.
  set (self1 := snd (cops_called self)).
  set (self2 := placed _ _ _ _ self1).
  set (self3 := if uniform_win _ _ then _ else _).
  chain self3; [|apply respects_if_settle; [lia | now apply neq_continues]].
  chain self2; [|apply respects_if_settle; [lia | now apply neq_continues]].
  chain self1; [apply respects_cops_called|].
  apply respects_placed; [lia | now apply neq_continues].
Qed.

Lemma respects_robber_ply (self : Game) : respects_latch self (robber_ply self).
Proof.
  unfold robber_ply, robber_checked.
  set (self1 := snd (robber_called self)).
  set (self2 := placed _ _ _ _ self1).
  chain self2; [|apply respects_if_settle; [lia | now apply neq_continues]].
  chain self1; [apply respects_robber_called|].
  apply respects_placed; [lia | now apply neq_continues].
Qed.

Lemma respects_round_played (self : Game) : respects_latch self (round_played self).
Proof.
  unfold round_played.
  set (self' := with_round _ self).
  chain self'; [apply respects_same; reflexivity|].
  destruct (_ =? 0); [apply respects_cops_ply | apply respects_robber_ply].
Qed.

Lemma constructed_coherent : coherent constructed.
Proof.
  assert (H : forall i self, coherent self -> coherent (log_invocation i self))
    by (intros i self Hc; exact Hc).
  assert (Hf : coherent fresh) by (split; reflexivity).
  unfold constructed.
  destruct (new cops_engine) as [c|].
  - destruct (new robber_engine) as [r|].
    + exact Hf.
    + apply settle_coherent; [lia | now apply neq_continues | exact Hf].
  - apply settle_coherent; [lia | now apply neq_continues | exact Hf].
Qed.

Lemma after_coherent (n : nat) : coherent (after n).
Proof.
  induction n as [|n IH].
  - rewrite after_0. exact constructed_coherent.
  - rewrite after_S. now apply respects_round_played.
Qed.

Lemma coherent_decided (self : Game) :
  coherent self -> __result self <> 0 -> decided self.
Proof. intros [H1 H2] Hr. split; [exact Hr|]. intro Hs. now apply Hr, H2. Qed.

(** ** What a ply leaves alone *)

Lemma settle_round (r : Z) (s : string) (self : Game) :
  __round (settle r s self) = __round self.
Proof. apply settle_frame. Qed.

Lemma settle_cops (r : Z) (s : string) (self : Game) :
  cops (settle r s self) = cops self.
Proof. apply settle_frame. Qed.

Lemma settle_robber (r : Z) (s : string) (self : Game) :
  robber (settle r s self) = robber self.
Proof. apply settle_frame. Qed.

Lemma settle_invoked (r : Z) (s : string) (self : Game) :
  invoked (settle r s self) = invoked self.
Proof. apply settle_frame. Qed.

Lemma settle_logged (r : Z) (s : string) (self : Game) :
  logged (settle r s self) = logged self.
Proof. apply settle_frame. Qed.

Ltac frame :=
  repeat match goal with
         | |- context [if ?b then _ else _] => destruct b
         end;
  rewrite ?settle_round, ?settle_cops, ?settle_robber, ?settle_invoked,
    ?settle_logged, ?settle_graph;
  cbn [with_graph with_round with_cops with_robber log_invocation note
       graph __round __result __status cops robber invoked logged].

Lemma placed_frame (mark : string) (r : Z) (s : string) (move : Move) (self : Game) :
  __round (placed mark r s move self) = __round self /\
  cops (placed mark r s move self) = cops self /\
  robber (placed mark r s move self) = robber self /\
  invoked (placed mark r s move self) = invoked self.
Proof. unfold placed. frame; repeat split. Qed.

Lemma cops_called_round (self : Game) : __round (snd (cops_called self)) = __round self.
Proof.
  unfold cops_called. destruct (cops self) as [c|]; cbn [snd].
  - destruct (fst (step cops_engine c (graph self))); cbn [snd]; frame; reflexivity.
  - frame; reflexivity.
Qed.

Lemma robber_called_round (self : Game) :
  __round (snd (robber_called self)) = __round self.
Proof.
  unfold robber_called. destruct (robber self) as [r|]; cbn [snd].
  - destruct (fst (step robber_engine r (graph self))); cbn [snd]; frame; reflexivity.
  - frame; reflexivity.
Qed.

Lemma round_played_round (self : Game) :
  __round (round_played self) = __round self + 1.
Proof.
  unfold round_played, cops_ply, robber_ply, cops_checked, robber_checked.
  frame; rewrite ?(proj1 (placed_frame _ _ _ _ _)),
           ?cops_called_round, ?robber_called_round; reflexivity.
Qed.

Lemma constructed_round : __round constructed = -1.
Proof.
  unfold constructed.
  destruct (new cops_engine); [destruct (new robber_engine)|]; frame; reflexivity.
Qed.

Lemma after_round (n : nat) : __round (after n) = Z.of_nat n - 1.
Proof.
  induction n as [|n IH].
  - rewrite after_0. exact constructed_round.
  - rewrite after_S, round_played_round, IH. lia.
Qed.

Lemma after_cops_turn (n : nat) : cops_turn (after n) = Nat.even n.
Proof.
  unfold cops_turn. rewrite after_round.
  replace (Z.of_nat n - 1 + 1) with (Z.of_nat n) by lia.
  destruct (Nat.even n) eqn:E.
  - apply Nat.even_spec in E as [k ->]. apply Z.eqb_eq.
    rewrite Nat2Z.inj_mul, Z.mul_comm. apply Z.mod_mul. lia.
  - apply Z.eqb_neq. intro H.
    assert (Ho : Nat.odd n = true) by (rewrite <- Nat.negb_even, E; reflexivity).
    apply Nat.odd_spec in Ho as [k ->].
    rewrite Nat2Z.inj_add, Nat2Z.inj_mul in H.
    rewrite Z.add_comm, Z.mul_comm, Z.mod_add in H by lia. discriminate.
Qed.

(** ** Engine instances and invocations across a ply *)

Lemma cops_ply_engines (self : Game) :
  invoked (cops_ply self) =
    (invoked self ++ match cops self with Some _ => [StepCops] | None => [] end)%list /\
  (cops (cops_ply self) = None <-> cops self = None) /\
  robber (cops_ply self) = robber self.
Proof.
  unfold cops_ply, cops_checked.
  set (self1 := snd (cops_called self)).
  assert (H1 : invoked self1 =
               (invoked self ++ match cops self with
                                | Some _ => [StepCops] | None => [] end)%list /\
               (cops self1 = None <-> cops self = None) /\
               robber self1 = robber self).
  { subst self1. unfold cops_called. destruct (cops self) as [c|] eqn:Ec; cbn [snd].
    - destruct (fst (step cops_engine c (graph self))); cbn [snd]; frame;
        (split; [reflexivity|]); (split; [|reflexivity]); split; intro; discriminate.
    - frame. rewrite app_nil_r, Ec. repeat split; auto. }
  destruct (placed_frame "C" (-1) "Cops invalid step" (fst (cops_called self)) self1)
    as (_ & Hc & Hr & Hi).
  set (self2 := placed _ _ _ _ self1) in *.
  destruct H1 as (E1 & E2 & E3).
  frame; rewrite ?Hc, ?Hr, ?Hi; auto.
Qed.

Lemma robber_ply_engines (self : Game) :
  invoked (robber_ply self) =
    (invoked self ++ match robber self with Some _ => [StepRobber] | None => [] end)%list /\
  (robber (robber_ply self) = None <-> robber self = None) /\
  cops (robber_ply self) = cops self.
Proof.
  unfold robber_ply, robber_checked.
  set (self1 := snd (robber_called self)).
  assert (H1 : invoked self1 =
               (invoked self ++ match robber self with
                                | Some _ => [StepRobber] | None => [] end)%list /\
               (robber self1 = None <-> robber self = None) /\
               cops self1 = cops self).
  { subst self1. unfold robber_called. destruct (robber self) as [r|] eqn:Er; cbn [snd].
    - destruct (fst (step robber_engine r (graph self))); cbn [snd]; frame;
        (split; [reflexivity|]); (split; [|reflexivity]); split; intro; discriminate.
    - frame. rewrite app_nil_r, Er. repeat split; auto. }
  destruct (placed_frame "R" 1 "Robber invalid step" (fst (robber_called self)) self1)
    as (_ & Hc & Hr & Hi).
  set (self2 := placed _ _ _ _ self1) in *.
  destruct H1 as (E1 & E2 & E3).
  frame; rewrite ?Hc, ?Hr, ?Hi; auto.
Qed.

Lemma round_played_engines (self : Game) :
  invoked (round_played self) =
    (invoked self ++
     if cops_turn self
     then match cops self with Some _ => [StepCops] | None => [] end
     else match robber self with Some _ => [StepRobber] | None => [] end)%list /\
  (cops (round_played self) = None <-> cops self = None) /\
  (robber (round_played self) = None <-> robber self = None).
Proof.
  unfold round_played, cops_turn. cbn [__round with_round].
  destruct (_ =? 0).
  - destruct (cops_ply_engines (with_round (__round self + 1) self)) as (Hi & Hc & Hr).
    rewrite Hi, Hr. cbn [with_round cops robber invoked] in *. tauto.
  - destruct (robber_ply_engines (with_round (__round self + 1) self)) as (Hi & Hr & Hc).
    rewrite Hi, Hc. cbn [with_round cops robber invoked] in *. tauto.
Qed.

Lemma constructed_engines :
  (cops constructed = None <-> new cops_engine = Raises) /\
  (robber constructed = None <->
   new cops_engine = Raises \/ new robber_engine = Raises).
Proof.
  unfold constructed.
  destruct (new cops_engine) as [c|]; [destruct (new robber_engine) as [r|]|];
    frame; (split; split; intro H; try discriminate; auto);
    destruct H; discriminate.
Qed.

Lemma after_engines (n : nat) :
  (cops (after n) = None <-> new cops_engine = Raises) /\
  (robber (after n) = None <->
   new cops_engine = Raises \/ new robber_engine = Raises).
Proof.
  induction n as [|n IH].
  - rewrite after_0. exact constructed_engines.
  - rewrite after_S.
    destruct (round_played_engines (after n)) as (_ & Hc & Hr). tauto.
Qed.

(** ** The driver's calls *)

Lemma next_round_after (n : nat) : next_round (after n) = (inr tt, after (S n)).
Proof. rewrite after_S. apply next_round_runs, after_shaped. Qed.

Lemma rounds_after (n m : nat) : rounds m (after n) = (inr tt, after (n + m)).
Proof.
  induction m as [|m IH].
  - now rewrite Nat.add_0_r.
  - cbn [rounds]. unfold bind. rewrite IH.
    replace (n + S m)%nat with (S (n + m)) by lia. apply next_round_after.
Qed.

Lemma after_decided (n m : nat) :
  __result (after n) <> 0 ->
  decided (after (n + m)) /\
  __result (after (n + m)) = __result (after n) /\
  __status (after (n + m)) = __status (after n).
Proof.
  intro Hr.
  assert (Hd : decided (after n)) by (apply coherent_decided; [apply after_coherent | exact Hr]).
  induction m as [|m (Hd' & Er & Es)].
  - rewrite Nat.add_0_r. split; [exact Hd | split; reflexivity].
  - replace (n + S m)%nat with (S (n + m)) by lia. rewrite after_S.
    destruct (respects_round_played (after (n + m))) as [_ H].
    destruct (H Hd') as [Er' Es'].
    split; [destruct Hd'; split; congruence|].
    split; congruence.
Qed.

(** ** A ply, case by case *)

Lemma cops_called_cases (self : Game) :
  exists self1,
    graph self1 = graph self /\
    __result self1 = __result self /\
    __status self1 = __status self /\
    cops_called self =
    match cops_answer self with
    | Some (Returns move) => (move, self1)
    | _ => (None, settle (-1) "Exception in cops call" self1)
    end.
Proof.
  unfold cops_called, cops_answer. destruct (cops self) as [c|]; cbn [option_map].
  - set (self' := log_invocation StepCops
                    (with_cops (Some (snd (step cops_engine c (graph self)))) self)).
    destruct (fst (step cops_engine c (graph self))).
    + exists self'. repeat split.
    + exists (note EngineError self'). repeat split.
  - exists (note AttributeError self). repeat split.
Qed.

Lemma robber_called_cases (self : Game) :
  exists self1,
    graph self1 = graph self /\
    __result self1 = __result self /\
    __status self1 = __status self /\
    robber_called self =
    match robber_answer self with
    | Some (Returns move) => (move, self1)
    | _ => (None, settle 1 "Exception in robber call" self1)
    end.
Proof.
  unfold robber_called, robber_answer. destruct (robber self) as [r|]; cbn [option_map].
  - set (self' := log_invocation StepRobber
                    (with_robber (Some (snd (step robber_engine r (graph self)))) self)).
    destruct (fst (step robber_engine r (graph self))).
    + exists self'. repeat split.
    + exists (note EngineError self'). repeat split.
  - exists (note AttributeError self). repeat split.
Qed.

Lemma cops_round_cases (self : Game) :
  cops_turn self = true ->
  exists self1,
    graph self1 = graph self /\
    __result self1 = __result self /\
    __status self1 = __status self /\
    round_played self =
    cops_checked
      match cops_answer self with
      | Some (Returns move) => placed "C" (-1) "Cops invalid step" move self1
      | _ => placed "C" (-1) "Cops invalid step" None
                    (settle (-1) "Exception in cops call" self1)
      end.
Proof.
  intro Ht. unfold round_played. cbn [__round with_round].
  unfold cops_turn in Ht. rewrite Ht. unfold cops_ply.
  destruct (cops_called_cases (with_round (__round self + 1) self))
    as (self1 & Hg & Hr & Hs & ->).
  exists self1. repeat split; try assumption.
  change (cops_answer (with_round (__round self + 1) self)) with (cops_answer self).
  now destruct (cops_answer self) as [[move|]|].
Qed.

Lemma robber_round_cases (self : Game) :
  cops_turn self = false ->
  exists self1,
    graph self1 = graph self /\
    __result self1 = __result self /\
    __status self1 = __status self /\
    round_played self =
    robber_checked
      match robber_answer self with
      | Some (Returns move) => placed "R" 1 "Robber invalid step" move self1
      | _ => placed "R" 1 "Robber invalid step" None
                    (settle 1 "Exception in robber call" self1)
      end.
Proof.
  intro Ht. unfold round_played. cbn [__round with_round].
  unfold cops_turn in Ht. rewrite Ht. unfold robber_ply.
  destruct (robber_called_cases (with_round (__round self + 1) self))
    as (self1 & Hg & Hr & Hs & ->).
  exists self1. repeat split; try assumption.
  change (robber_answer (with_round (__round self + 1) self)) with (robber_answer self).
  now destruct (robber_answer self) as [[move|]|].
Qed.

Lemma cops_checked_graph (self : Game) : graph (cops_checked self) = graph self.
Proof. unfold cops_checked. frame; reflexivity. Qed.

Lemma robber_checked_graph (self : Game) : graph (robber_checked self) = graph self.
Proof. unfold robber_checked. frame; reflexivity. Qed.

Lemma cops_checked_decided (self : Game) : decided self -> cops_checked self = self.
Proof.
  intro Hd. unfold cops_checked.
  destruct (uniform_win (graph self) "C"); rewrite ?(settle_decided _ _ _ Hd);
    destruct (_ =? _)%nat; rewrite ?(settle_decided _ _ _ Hd); reflexivity.
Qed.

Lemma robber_checked_decided (self : Game) : decided self -> robber_checked self = self.
Proof.
  intro Hd. unfold robber_checked.
  destruct (uniform_win (graph self) "R"); rewrite ?(settle_decided _ _ _ Hd);
    reflexivity.
Qed.

Lemma placed_graph (mark : string) (r : Z) (s : string) (move : Move) (self : Game) :
  graph (placed mark r s move self) =
  if valid_move (graph self) move then marked (graph self) mark move else graph self.
Proof.
  unfold placed. destruct (valid_move (graph self) move);
    [reflexivity | apply settle_graph].
Qed.

Lemma placed_invalid (mark : string) (r : Z) (s : string) (move : Move) (self : Game) :
  valid_move (graph self) move = false ->
  placed mark r s move self = settle r s self.
Proof. intro H. unfold placed. now rewrite H. Qed.

Lemma settled_is_decided (r : Z) (s : string) (self : Game) :
  r <> 0 -> s <> "Game continues" ->
  __result self = 0 -> __status self = "Game continues" ->
  decided (settle r s self) /\
  __result (settle r s self) = r /\ __status (settle r s self) = s.
Proof.
  intros Hr Hs Er Es.
  destruct (settle_continuing r s self Er Es) as [E1 E2].
  unfold decided. rewrite E1, E2. auto.
Qed.

(** ** A ply with a valid move that makes no line *)

Lemma uniform_win_false (g : Graph) (label : string) :
  tictactoe_shaped g -> __three_in_a_row g label = inr 0 ->
  uniform_win g label = false.
Proof.
  intros Hs H. rewrite (three_in_a_row_uniform _ _ Hs) in H.
  now destruct (uniform_win g label).
Qed.

Lemma valid_ply (n : nat) :
  __result (after n) = 0 -> __status (after n) = "Game continues" ->
  answers_validly (after n) -> no_line (after (S n)) ->
  blanks (graph (after n)) = S (blanks (graph (after (S n)))) /\
  if cops_turn (after n) && (blanks (graph (after (S n))) =? 0)%nat
  then __result (after (S n)) = -1 /\ __status (after (S n)) = "Cops shift ends"
  else __result (after (S n)) = 0 /\ __status (after (S n)) = "Game continues".
Proof.
  intros Er Es (move & Ha & Hv) [HC HR].
  pose proof (after_shaped (S n)) as Hshape.
  rewrite after_S in HC, HR, Hshape |- *.
  destruct (cops_turn (after n)) eqn:Ht.
  - destruct (cops_round_cases _ Ht) as (self1 & Hg & Hr1 & Hs1 & E).
    rewrite Ha in E. rewrite E in HC, Hshape |- *. clear E HR.
    rewrite cops_checked_graph in HC, Hshape |- *.
    unfold placed in *. rewrite Hg, Hv in *. cbn [with_graph graph] in *.
    split; [now apply blanks_marked|].
    unfold cops_checked. cbn [with_graph graph].
    rewrite (uniform_win_false _ _ Hshape HC). cbn [andb with_graph graph].
    destruct (blanks (marked (graph (after n)) "C" move) =? 0)%nat.
    + apply settle_continuing; cbn [with_graph __result __status]; congruence.
    + cbn [with_graph __result __status]. split; congruence.
  - destruct (robber_round_cases _ Ht) as (self1 & Hg & Hr1 & Hs1 & E).
    rewrite Ha in E. rewrite E in HR, Hshape |- *. clear E HC.
    rewrite robber_checked_graph in HR, Hshape |- *.
    unfold placed in *. rewrite Hg, Hv in *. cbn [with_graph graph] in *.
    split; [now apply blanks_marked|].
    unfold robber_checked. cbn [with_graph graph].
    rewrite (uniform_win_false _ _ Hshape HR). cbn [andb with_graph __result __status].
    split; congruence.
Qed.

Lemma both_constructed_fresh :
  new cops_engine <> Raises -> new robber_engine <> Raises ->
  __result constructed = 0 /\ __status constructed = "Game continues" /\
  graph constructed = __init_tictactoe_graph.
Proof.
  intros Hc Hr. unfold constructed.
  destruct (new cops_engine); [|contradiction].
  destruct (new robber_engine); [|contradiction].
  repeat split.
Qed.

Lemma answer_needs_engine (n : nat) :
  answers_validly (after n) ->
  if cops_turn (after n) then new cops_engine <> Raises
  else new robber_engine <> Raises.
Proof.
  intros (move & Ha & _). destruct (after_engines n) as [Hc Hr].
  destruct (cops_turn (after n)).
  - intro E. apply Hc in E. unfold cops_answer in Ha. now rewrite E in Ha.
  - intro E. assert (E' : robber (after n) = None) by (apply Hr; now right).
    unfold robber_answer in Ha. now rewrite E' in Ha.
Qed.

(** ** The graph of a reachable game *)

Lemma round_played_graph (self : Game) :
  graph (round_played self) = graph self \/
  exists mark i j, graph (round_played self) = marked (graph self) mark (Some (i, j)).
Proof.
  destruct (cops_turn self) eqn:Ht.
  - destruct (cops_round_cases _ Ht) as (self1 & Hg & _ & _ & ->).
    rewrite cops_checked_graph.
    destruct (cops_answer self) as [[[[i j]|]|]|];
      rewrite placed_graph, ?settle_graph, Hg;
      [destruct (valid_move (graph self) (Some (i, j))); eauto | now left ..].
  - destruct (robber_round_cases _ Ht) as (self1 & Hg & _ & _ & ->).
    rewrite robber_checked_graph.
    destruct (robber_answer self) as [[[[i j]|]|]|];
      rewrite placed_graph, ?settle_graph, Hg;
      [destruct (valid_move (graph self) (Some (i, j))); eauto | now left ..].
Qed.

Lemma after_lines_blank (n : nat) : lines_blank (graph (after n)).
Proof.
  induction n as [|n IH].
  - rewrite after_0. unfold constructed.
    destruct (new cops_engine); [destruct (new robber_engine)|];
      rewrite ?settle_graph; exact lines_blank_init.
  - rewrite after_S.
    destruct (round_played_graph (after n)) as [->|(mark & i & j & ->)];
      [exact IH | now apply lines_blank_marked].
Qed.

(** ** What is logged *)

Lemma placed_logged (mark : string) (r : Z) (s : string) (move : Move) (self : Game) :
  logged (placed mark r s move self) = logged self.
Proof. unfold placed. frame; reflexivity. Qed.

Lemma cops_ply_logged (self : Game) :
  logged (cops_ply self) =
  (logged self ++ match cops_answer self with
                  | Some (Returns _) => []
                  | Some Raises => [EngineError]
                  | None => [AttributeError]
                  end)%list.
Proof.
  unfold cops_ply, cops_checked. frame; rewrite placed_logged;
    unfold cops_called, cops_answer;
    (destruct (cops self) as [c|]; cbn [option_map snd];
     [destruct (fst (step cops_engine c (graph self))); cbn [snd]|]);
    frame; rewrite ?app_nil_r; reflexivity.
Qed.

Lemma robber_ply_logged (self : Game) :
  logged (robber_ply self) =
  (logged self ++ match robber_answer self with
                  | Some (Returns _) => []
                  | Some Raises => [EngineError]
                  | None => [AttributeError]
                  end)%list.
Proof.
  unfold robber_ply, robber_checked. frame; rewrite placed_logged;
    unfold robber_called, robber_answer;
    (destruct (robber self) as [r|]; cbn [option_map snd];
     [destruct (fst (step robber_engine r (graph self))); cbn [snd]|]);
    frame; rewrite ?app_nil_r; reflexivity.
Qed.

Lemma round_played_logged (self : Game) :
  logged (round_played self) =
  (logged self ++ match (if cops_turn self then cops_answer self
                         else robber_answer self) with
                  | Some (Returns _) => []
                  | Some Raises => [EngineError]
                  | None => [AttributeError]
                  end)%list.
Proof.
  unfold round_played, cops_turn. cbn [__round with_round].
  destruct (_ =? 0); [rewrite cops_ply_logged | rewrite robber_ply_logged];
    reflexivity.
Qed.

Lemma settle_nonzero (r : Z) (s : string) (self : Game) :
  r <> 0 -> __result (settle r s self) <> 0.
Proof.
  intro Hr. rewrite settle_result.
  now destruct (Z.eqb_spec (__result self) 0).
Qed.

Lemma settle_keeps_nonzero (r : Z) (s : string) (self : Game) :
  __result self <> 0 -> __result (settle r s self) = __result self.
Proof.
  intro H. rewrite settle_result. apply Z.eqb_neq in H. now rewrite H.
Qed.

Lemma placed_keeps_nonzero (mark : string) (r : Z) (s : string) (move : Move)
      (self : Game) :
  __result self <> 0 -> __result (placed mark r s move self) = __result self.
Proof.
  intro H. unfold placed. destruct (valid_move (graph self) move);
    [reflexivity | now apply settle_keeps_nonzero].
Qed.

Lemma cops_checked_keeps_nonzero (self : Game) :
  __result self <> 0 -> __result (cops_checked self) = __result self.
Proof.
  intro H. unfold cops_checked.
  destruct (uniform_win (graph self) "C"); destruct (_ =? _)%nat;
    rewrite ?settle_keeps_nonzero; rewrite ?settle_keeps_nonzero; auto.
Qed.

Lemma robber_checked_keeps_nonzero (self : Game) :
  __result self <> 0 -> __result (robber_checked self) = __result self.
Proof.
  intro H. unfold robber_checked.
  destruct (uniform_win (graph self) "R"); rewrite ?settle_keeps_nonzero; auto.
Qed.

Lemma raising_step_decides (self : Game) :
  (if cops_turn self then cops_answer self else robber_answer self) = Some Raises ->
  __result (round_played self) <> 0 /\
  (__result self = 0 ->
   __result (round_played self) = if cops_turn self then -1 else 1).
Proof.
  intro Ha. destruct (cops_turn self) eqn:Ht.
  - destruct (cops_round_cases _ Ht) as (self1 & _ & Hr & _ & ->). rewrite Ha.
    pose proof (settle_nonzero (-1) "Exception in cops call" self1 ltac:(lia)) as Hn.
    rewrite cops_checked_keeps_nonzero, placed_keeps_nonzero;
      try assumption; [|now rewrite placed_keeps_nonzero].
    split; [exact Hn|]. intro H0. rewrite settle_result, Hr, H0. reflexivity.
  - destruct (robber_round_cases _ Ht) as (self1 & _ & Hr & _ & ->). rewrite Ha.
    pose proof (settle_nonzero 1 "Exception in robber call" self1 ltac:(lia)) as Hn.
    rewrite robber_checked_keeps_nonzero, placed_keeps_nonzero;
      try assumption; [|now rewrite placed_keeps_nonzero].
    split; [exact Hn|]. intro H0. rewrite settle_result, Hr, H0. reflexivity.
Qed.

(** ** The properties of the referee *)

(** C1.  Once [result()] is non-zero after some calls of [next_round], any
    number of further calls returns normally and leaves [result()] and
    [status()] as they were; every later outcome-setting operation
    ([__robber_win] or [__cops_win] followed by [__set_status]) changes
    nothing at all. *)
Theorem outcome_is_latched (n m : nat) :
  result (after n) <> 0 ->
  exists self',
    rounds m (after n) = (inr tt, self') /\
    result self' = result (after n) /\
    status self' = status (after n) /\
    forall s, (__robber_win ;; __set_status s) self' = (inr tt, self') /\
              (__cops_win ;; __set_status s) self' = (inr tt, self').
Proof.
  unfold result, status. intro Hr.
  destruct (after_decided n m Hr) as (Hd & Er & Es).
  exists (after (n + m)). split; [apply rounds_after|].
  split; [exact Er|]. split; [exact Es|].
  intro s. rewrite robber_win_then_status, cops_win_then_status.
  now rewrite !settle_decided.
Qed.

(** C10.  In every reachable state, that is after construction and any
    number of calls of [next_round], [result()] is 0 if and only if
    [status()] is "Game continues". *)
Theorem result_zero_iff_game_continues (n : nat) :
  result (after n) = 0 <-> status (after n) = "Game continues".
Proof. exact (after_coherent n). Qed.

(** C7, as amended.  No error propagates to the caller: whatever the two
    engine classes do when constructed and when asked for a step (return or
    raise), the constructor returns normally, and so does every call of
    [next_round], on the game reached after any number of rounds.  An
    exception raised by a constructor or by [step] is caught and logged, and
    the game is decided afterwards: for the other side when the game was
    still continuing, and with the outcome it already had when it was
    decided before. *)
Theorem no_error_leaves_the_referee :
  fst Game_new = inr tt /\
  (forall n, fst (play n) = inr tt /\ fst (next_round (after n)) = inr tt) /\
  (new cops_engine = Raises \/ new robber_engine = Raises ->
   logged (after 0) = [EngineError] /\
   result (after 0) = match new cops_engine with Raises => -1 | Returns _ => 1 end) /\
  (forall n,
     (if cops_turn (after n) then cops_answer (after n) else robber_answer (after n))
     = Some Raises ->
     logged (after (S n)) = (logged (after n) ++ [EngineError])%list /\
     result (after (S n)) <> 0 /\
     (result (after n) = 0 ->
      result (after (S n)) = if cops_turn (after n) then -1 else 1) /\
     (result (after n) <> 0 ->
      result (after (S n)) = result (after n) /\
      status (after (S n)) = status (after n))).
Proof.
  split; [now rewrite Game_new_runs|].
  split; [|split].
  - intro n. split.
    + now rewrite (proj1 (play_runs n)).
    + now rewrite next_round_after.
  - rewrite after_0. unfold constructed, result.
    destruct (new cops_engine) as [c|]; [|split; reflexivity].
    destruct (new robber_engine) as [r|]; [|split; reflexivity].
    intros [H|H]; discriminate.
  - intros n Ha.
    assert (Hkeep : result (after n) <> 0 ->
                    result (after (S n)) = result (after n) /\
                    status (after (S n)) = status (after n)).
    { intro Hd. destruct (after_decided n 1 Hd) as (_ & Er & Es).
      replace (n + 1)%nat with (S n) in Er, Es by lia. split; assumption. }
    rewrite after_S in *. rewrite round_played_logged, Ha.
    split; [reflexivity|].
    destruct (raising_step_decides _ Ha) as [H1 H2].
    split; [exact H1|]. split; [exact H2 | exact Hkeep].
Qed.

(** C6.  When the Cops engine class raises on construction, the constructor
    returns normally, [result()] is -1, [status()] is "Exception in cops
    call", and the only engine operation invoked is the Cops constructor: the
    Robber class is never called and there is no Robber instance. *)
Theorem cops_factory_failure :
  new cops_engine = Raises ->
  exists self,
    Game_new = (inr tt, self) /\
    result self = -1 /\
    status self = "Exception in cops call" /\
    invoked self = [NewCops] /\
    robber self = None.
Proof.
  intro H. exists constructed. split; [exact Game_new_runs|].
  unfold constructed. rewrite H. repeat split.
Qed.

(** C9, as amended.  The round counter is -1 after construction and every
    call of [next_round] adds exactly 1 to it.  The n-th call (counted from
    0) invokes the Cops engine's [step], once and nothing else, when n is
    even and the Cops class has constructed; it invokes the Robber engine's
    [step], once and nothing else, when n is odd and both classes have
    constructed; a call whose side has no instance invokes nothing. *)
Theorem round_parity :
  __round (after 0) = -1 /\
  (forall n, __round (after (S n)) = __round (after n) + 1) /\
  (forall n,
     invoked (after (S n)) =
     (invoked (after n) ++
      if Nat.even n
      then match new cops_engine with
           | Returns _ => [StepCops]
           | Raises => []
           end
      else match new cops_engine, new robber_engine with
           | Returns _, Returns _ => [StepRobber]
           | _, _ => []
           end)%list).
Proof.
  split; [apply (after_round 0)|].
  split; [intro n; rewrite after_S; apply round_played_round|].
  intro n. rewrite after_S.
  destruct (round_played_engines (after n)) as (Hi & _).
  destruct (after_engines n) as (Ec & Er).
  rewrite Hi, after_cops_turn. f_equal.
  destruct (Nat.even n).
  - destruct (cops (after n)) eqn:E, (new cops_engine) eqn:E1;
      first [reflexivity | exfalso; intuition congruence].
  - destruct (robber (after n)) eqn:E, (new cops_engine) eqn:E1,
      (new robber_engine) eqn:E2;
      first [reflexivity | exfalso; intuition congruence].
Qed.

Lemma continuing (n : nat) :
  result (after n) = 0 ->
  __result (after n) = 0 /\ __status (after n) = "Game continues".
Proof. intro H. split; [exact H | now apply (after_coherent n)]. Qed.

(** C5.  In a game that is still continuing, a ply whose engine raises in
    [step] ends the game for the other side: result -1 and status "Exception
    in cops call" on a Cops ply, result 1 and status "Exception in robber
    call" on a Robber ply.  The validation of the absent move, which runs
    afterwards, does not change that status, and no cell is labelled. *)
Theorem step_exception_forfeits (n : nat) :
  result (after n) = 0 ->
  (cops_turn (after n) = true -> cops_answer (after n) = Some Raises ->
   result (after (S n)) = -1 /\
   status (after (S n)) = "Exception in cops call" /\
   graph (after (S n)) = graph (after n)) /\
  (cops_turn (after n) = false -> robber_answer (after n) = Some Raises ->
   result (after (S n)) = 1 /\
   status (after (S n)) = "Exception in robber call" /\
   graph (after (S n)) = graph (after n)).
Proof.
  intro H0. destruct (continuing n H0) as [Er Es]. rewrite after_S.
  unfold result, status. split; intros Ht Ha.
  - destruct (cops_round_cases _ Ht) as (self1 & Hg & Hr & Hs & ->).
    rewrite Ha.
    destruct (settled_is_decided (-1) "Exception in cops call" self1 ltac:(lia)
                ltac:(now apply neq_continues) ltac:(congruence) ltac:(congruence))
      as (Hd & E1 & E2).
    rewrite placed_invalid by reflexivity.
    rewrite (settle_decided _ _ _ Hd), (cops_checked_decided _ Hd).
    rewrite E1, E2, settle_graph. auto.
  - destruct (robber_round_cases _ Ht) as (self1 & Hg & Hr & Hs & ->).
    rewrite Ha.
    destruct (settled_is_decided 1 "Exception in robber call" self1 ltac:(lia)
                ltac:(now apply neq_continues) ltac:(congruence) ltac:(congruence))
      as (Hd & E1 & E2).
    rewrite placed_invalid by reflexivity.
    rewrite (settle_decided _ _ _ Hd), (robber_checked_decided _ Hd).
    rewrite E1, E2, settle_graph. auto.
Qed.

(** C4, as amended.  On each ply whose engine returns a move: if the move is
    absent, off the board, or aimed at a cell that is not blank, no cell is
    labelled and, when the game was still continuing before the ply, the
    other side wins (result -1 and status "Cops invalid step" on a Cops ply,
    result 1 and status "Robber invalid step" on a Robber ply); otherwise
    the target cell is labelled with the mark of the side that moved. *)
Theorem move_validation (n : nat) (move : Move) :
  (cops_turn (after n) = true -> cops_answer (after n) = Some (Returns move) ->
   (valid_move (graph (after n)) move = false ->
    graph (after (S n)) = graph (after n) /\
    (result (after n) = 0 ->
     result (after (S n)) = -1 /\ status (after (S n)) = "Cops invalid step")) /\
   (valid_move (graph (after n)) move = true ->
    graph (after (S n)) = marked (graph (after n)) "C" move /\
    forall i j, move = Some (i, j) ->
                get_label (graph (after (S n))) (Cell i j) = inr "C")) /\
  (cops_turn (after n) = false -> robber_answer (after n) = Some (Returns move) ->
   (valid_move (graph (after n)) move = false ->
    graph (after (S n)) = graph (after n) /\
    (result (after n) = 0 ->
     result (after (S n)) = 1 /\ status (after (S n)) = "Robber invalid step")) /\
   (valid_move (graph (after n)) move = true ->
    graph (after (S n)) = marked (graph (after n)) "R" move /\
    forall i j, move = Some (i, j) ->
                get_label (graph (after (S n))) (Cell i j) = inr "R")).
Proof.
  rewrite after_S. unfold result, status. split; intros Ht Ha.
  - destruct (cops_round_cases _ Ht) as (self1 & Hg & Hr & Hs & ->).
    rewrite Ha, cops_checked_graph, placed_graph, Hg. split; intro Hv; rewrite Hv.
    + split; [reflexivity|]. intro H0. destruct (continuing n H0) as [Er Es].
      rewrite placed_invalid by now rewrite Hg.
      destruct (settled_is_decided (-1) "Cops invalid step" self1 ltac:(lia)
                ltac:(now apply neq_continues) ltac:(congruence) ltac:(congruence))
      as (Hd & E1 & E2).
      now rewrite (cops_checked_decided _ Hd).
    + split; [reflexivity|]. intros i j ->.
      now rewrite get_label_marked, Node_eqb_refl.
  - destruct (robber_round_cases _ Ht) as (self1 & Hg & Hr & Hs & ->).
    rewrite Ha, robber_checked_graph, placed_graph, Hg. split; intro Hv; rewrite Hv.
    + split; [reflexivity|]. intro H0. destruct (continuing n H0) as [Er Es].
      rewrite placed_invalid by now rewrite Hg.
      destruct (settled_is_decided 1 "Robber invalid step" self1 ltac:(lia)
                ltac:(now apply neq_continues) ltac:(congruence) ltac:(congruence))
      as (Hd & E1 & E2).
      now rewrite (robber_checked_decided _ Hd).
    + split; [reflexivity|]. intros i j ->.
      now rewrite get_label_marked, Node_eqb_refl.
Qed.

Lemma settle_status_cases (r : Z) (s : string) (self : Game) :
  __status (settle r s self) = __status self \/ __status (settle r s self) = s.
Proof.
  rewrite settle_status.
  destruct (String.eqb (__status self) "Game continues"); auto.
Qed.

Lemma placed_status_cases (mark : string) (r : Z) (s : string) (move : Move)
      (self : Game) :
  __status (placed mark r s move self) = __status self \/
  __status (placed mark r s move self) = s.
Proof.
  unfold placed. destruct (valid_move (graph self) move).
  - now left.
  - apply settle_status_cases.
Qed.

Lemma robber_round_status (self : Game) :
  cops_turn self = false ->
  __status (round_played self) = __status self \/
  __status (round_played self) = "Exception in robber call" \/
  __status (round_played self) = "Robber invalid step" \/
  __status (round_played self) = "Robber escapes".
Proof.
  intro Ht. destruct (robber_round_cases _ Ht) as (self1 & _ & _ & Hs & ->).
  set (self2 := match robber_answer self with
                | Some (Returns move) => placed "R" 1 "Robber invalid step" move self1
                | _ => placed "R" 1 "Robber invalid step" None
                              (settle 1 "Exception in robber call" self1)
                end).
  assert (H2 : __status self2 = __status self \/
               __status self2 = "Exception in robber call" \/
               __status self2 = "Robber invalid step").
  { pose proof (settle_status_cases 1 "Exception in robber call" self1) as He.
    rewrite Hs in He.
    subst self2. destruct (robber_answer self) as [[move|]|].
    - destruct (placed_status_cases "R" 1 "Robber invalid step" move self1) as [E|E];
        rewrite E; auto.
    - destruct (placed_status_cases "R" 1 "Robber invalid step" None
                  (settle 1 "Exception in robber call" self1)) as [E|E];
        rewrite E; tauto.
    - destruct (placed_status_cases "R" 1 "Robber invalid step" None
                  (settle 1 "Exception in robber call" self1)) as [E|E];
        rewrite E; tauto. }
  unfold robber_checked. destruct (uniform_win (graph self2) "R"); [|tauto].
  destruct (settle_status_cases (-1) "Robber escapes" self2) as [E|E];
    rewrite E; tauto.
Qed.

(** C8, as amended.  The tie check belongs to the Cops ply and comes after
    the Cops three-in-a-row check.  A Robber ply never sets the status "Cops
    shift ends".  A Cops ply that both completes a Cops three-in-a-row and
    fills the last blank cell of a game still continuing ends it with result
    1 and status "Robber caught"; and in no case does such a ply set the tie
    outcome (a game decided before keeps the outcome it had). *)
Theorem three_in_a_row_precedes_tie (n : nat) :
  (cops_turn (after n) = false ->
   status (after (S n)) = "Cops shift ends" -> status (after n) = "Cops shift ends") /\
  (cops_turn (after n) = true ->
   __three_in_a_row (graph (after n)) "C" = inr 0 ->
   __game_tied (graph (after n)) = inr 0 ->
   __three_in_a_row (graph (after (S n))) "C" = inr 1 ->
   __game_tied (graph (after (S n))) = inr 1 ->
   (result (after n) = 0 ->
    result (after (S n)) = 1 /\ status (after (S n)) = "Robber caught") /\
   result (after (S n)) = (if result (after n) =? 0 then 1 else result (after n)) /\
   status (after (S n)) =
     (if String.eqb (status (after n)) "Game continues" then "Robber caught"
      else status (after n))).
Proof.
  unfold result, status. split.
  - intros Ht H. rewrite after_S in H.
    destruct (robber_round_status _ Ht) as [E|[E|[E|E]]];
      rewrite E in H; [exact H | discriminate H ..].
  - intros Ht _ Hfree Hrow Hfull.
    pose proof (after_shaped (S n)) as Hshape.
    rewrite after_S in Hrow, Hfull, Hshape |- *.
    destruct (cops_round_cases _ Ht) as (self1 & Hg & Hr & Hs & E).
    rewrite E in Hrow, Hfull, Hshape |- *. clear E.
    rewrite cops_checked_graph in Hrow, Hfull, Hshape.
    set (self2 := match cops_answer (after n) with
                  | Some (Returns move) => placed "C" (-1) "Cops invalid step" move self1
                  | _ => placed "C" (-1) "Cops invalid step" None
                                (settle (-1) "Exception in cops call" self1)
                  end) in *.
    assert (H2 : graph self2 <> graph (after n))
      by (intro E; rewrite E, Hfree in Hfull; discriminate).
    assert (Ho : __result self2 = __result (after n) /\
                 __status self2 = __status (after n)).
    { subst self2. destruct (cops_answer (after n)) as [[move|]|].
      - unfold placed in *. destruct (valid_move (graph self1) move).
        + now split.
        + now rewrite settle_graph in H2.
      - now rewrite placed_graph, settle_graph in H2.
      - now rewrite placed_graph, settle_graph in H2. }
    destruct Ho as [Er Es].
    rewrite (three_in_a_row_uniform _ _ Hshape) in Hrow.
    rewrite (game_tied_blanks _ Hshape) in Hfull.
    unfold cops_checked.
    destruct (uniform_win (graph self2) "C"); [clear Hrow | discriminate].
    rewrite settle_graph.
    destruct (blanks (graph self2) =? 0)%nat; [clear Hfull | discriminate].
    rewrite !settle_result, !settle_status, Er, Es.
    assert (Hres : (if (if __result (after n) =? 0 then 1 else __result (after n)) =? 0
                    then -1
                    else if __result (after n) =? 0 then 1 else __result (after n)) =
                   (if __result (after n) =? 0 then 1 else __result (after n))).
    { destruct (Z.eqb_spec (__result (after n)) 0) as [E0|E0]; [reflexivity|].
      apply Z.eqb_neq in E0. now rewrite E0. }
    assert (Hst : (if String.eqb
                        (if String.eqb (__status (after n)) "Game continues"
                         then "Robber caught" else __status (after n))
                        "Game continues"
                   then "Cops shift ends"
                   else if String.eqb (__status (after n)) "Game continues"
                        then "Robber caught" else __status (after n)) =
                  (if String.eqb (__status (after n)) "Game continues"
                   then "Robber caught" else __status (after n))).
    { destruct (String.eqb (__status (after n)) "Game continues") eqn:E0;
        [reflexivity | now rewrite E0]. }
    rewrite Hres, Hst. split; [|now split].
    intro H0. destruct (continuing n H0) as [E1 E2]. now rewrite E1, E2.
Qed.

(** C3.  When each of the first nine plies is a valid move of the engine
    whose turn it is (Cops on the even rounds, Robber on the odd ones) and no
    node has its neighbour set filled by one mark after any of them, the
    game continues through the first eight plies and ends on the ninth, the
    Cops ply that labels the last blank cell, with result -1 and status
    "Cops shift ends". *)
Theorem full_board_without_line_ends_in_tie :
  (forall k, (k < 9)%nat -> answers_validly (after k)) ->
  (forall k, (k <= 9)%nat -> no_line (after k)) ->
  (forall k, (k < 9)%nat ->
     result (after k) = 0 /\ status (after k) = "Game continues" /\
     cops_turn (after k) = Nat.even k) /\
  blanks (graph (after 8)) = 1%nat /\
  blanks (graph (after 9)) = 0%nat /\
  result (after 9) = -1 /\
  status (after 9) = "Cops shift ends".
Proof.
  intros Hvalid Hline. unfold result, status.
  assert (Hc : new cops_engine <> Raises).
  { pose proof (answer_needs_engine 0 (Hvalid 0%nat ltac:(lia))) as H.
    now rewrite after_cops_turn in H. }
  assert (Hr : new robber_engine <> Raises).
  { pose proof (answer_needs_engine 1 (Hvalid 1%nat ltac:(lia))) as H.
    now rewrite after_cops_turn in H. }
  assert (Hinv : forall k, (k < 9)%nat ->
            __result (after k) = 0 /\ __status (after k) = "Game continues" /\
            (blanks (graph (after k)) + k = 9)%nat).
  { induction k as [|k IH]; intro Hk.
    - rewrite after_0. destruct (both_constructed_fresh Hc Hr) as (E1 & E2 & E3).
      rewrite E1, E2, E3. repeat split.
    - destruct IH as (Er & Es & Eb); [lia|].
      destruct (valid_ply k Er Es (Hvalid k ltac:(lia)) (Hline (S k) ltac:(lia)))
        as [Hb Ho].
      assert (Hz : (blanks (graph (after (S k))) =? 0)%nat = false)
        by (apply Nat.eqb_neq; lia).
      rewrite Hz, andb_false_r in Ho. destruct Ho. repeat split; try assumption. lia. }
  split.
  - intros k Hk. destruct (Hinv k Hk) as (Er & Es & _).
    repeat split; try assumption. apply after_cops_turn.
  - destruct (Hinv 8%nat ltac:(lia)) as (Er & Es & Eb).
    destruct (valid_ply 8 Er Es (Hvalid 8%nat ltac:(lia)) (Hline 9%nat ltac:(lia)))
      as [Hb Ho].
    assert (E9 : blanks (graph (after 9)) = 0%nat) by lia.
    rewrite E9, after_cops_turn in Ho. cbn in Ho. destruct Ho.
    repeat split; try assumption. lia.
Qed.

(** C2, as amended.  The graph has 17 nodes, of which 8 are line nodes (3
    rows, 3 columns, 2 diagonals).  The line nodes are blank in every
    reachable game; and on every labelling of the tic-tac-toe graph whose
    line nodes are blank, the three-in-a-row check for a label other than
    the blank one, such as a player's mark 'C' or 'R', returns 1 exactly when
    some row, column or diagonal of the grid has its three cells labelled
    with it, and 0 otherwise: the uniform neighbour-set predicate over all
    nodes is the classic eight-line check. *)
Theorem three_in_a_row_is_the_eight_line_check :
  (List.length (nodes __init_tictactoe_graph) = 17%nat /\
   List.length (filter is_line (map fst (nodes __init_tictactoe_graph))) = 8%nat) /\
  (forall n, tictactoe_shaped (graph (after n)) /\ lines_blank (graph (after n))) /\
  (forall g label,
     tictactoe_shaped g -> lines_blank g -> label <> " " ->
     uniform_win g label = classic_win g label /\
     __three_in_a_row g label = inr (if classic_win g label then 1 else 0) /\
     (__three_in_a_row g label = inr 1 <-> classic_win g label = true)).
Proof.
  split; [split; reflexivity|].
  split; [intro n; split; [apply after_shaped | apply after_lines_blank]|].
  intros g label Hs Hb Hl.
  pose proof (uniform_is_classic g label Hs Hb Hl) as E.
  pose proof (three_in_a_row_uniform g label Hs) as H. rewrite E in H.
  split; [exact E|]. split; [exact H|]. rewrite H.
  destruct (classic_win g label); split; intro; congruence.
Qed.

(** ** Every ply, move by move *)

Lemma cops_checked_result (self : Game) :
  __result (cops_checked self) = 0 ->
  __result self = 0 /\ uniform_win (graph self) "C" = false /\
  blanks (graph self) <> 0%nat.
Proof.
  intro H.
  destruct (Z.eq_dec (__result self) 0) as [E|E];
    [|now rewrite (cops_checked_keeps_nonzero _ E) in H].
  split; [exact E|]. unfold cops_checked in H.
  destruct (uniform_win (graph self) "C").
  - exfalso.
    pose proof (settle_nonzero 1 "Robber caught" self ltac:(lia)) as Hn.
    destruct (_ =? _)%nat; [rewrite settle_keeps_nonzero in H|]; auto.
  - split; [reflexivity|].
    destruct (blanks (graph self) =? 0)%nat eqn:Eb.
    + exfalso. now apply (settle_nonzero (-1) "Cops shift ends" self ltac:(lia)).
    + now apply Nat.eqb_neq.
Qed.

Lemma robber_checked_result (self : Game) :
  __result (robber_checked self) = 0 ->
  __result self = 0 /\ uniform_win (graph self) "R" = false.
Proof.
  intro H.
  destruct (Z.eq_dec (__result self) 0) as [E|E];
    [|now rewrite (robber_checked_keeps_nonzero _ E) in H].
  split; [exact E|]. unfold robber_checked in H.
  destruct (uniform_win (graph self) "R"); [|reflexivity].
  exfalso. now apply (settle_nonzero (-1) "Robber escapes" self ltac:(lia)).
Qed.

Lemma placed_result (mark : string) (r : Z) (s : string) (move : Move) (self : Game) :
  r <> 0 -> __result (placed mark r s move self) = 0 ->
  __result self = 0 /\ valid_move (graph self) move = true /\
  placed mark r s move self = with_graph (marked (graph self) mark move) self.
Proof.
  intros Hr H. unfold placed in *.
  destruct (valid_move (graph self) move).
  - now repeat split.
  - exfalso. now apply (settle_nonzero r s self Hr).
Qed.

(** A ply after which the result is still 0 was a valid move that made no
    line for the mover and, on a Cops ply, left a blank cell. *)
Lemma continuing_ply (self : Game) :
  __result (round_played self) = 0 ->
  __result self = 0 /\
  exists move,
    (if cops_turn self then cops_answer self else robber_answer self)
    = Some (Returns move) /\
    valid_move (graph self) move = true /\
    graph (round_played self) = marked (graph self) (mover_mark self) move /\
    uniform_win (graph (round_played self)) (mover_mark self) = false /\
    (cops_turn self = true -> blanks (graph (round_played self)) <> 0%nat).
Proof.
  intro H. unfold mover_mark. destruct (cops_turn self) eqn:Ht.
  - destruct (cops_round_cases _ Ht) as (self1 & Hg & Hr & Hs & E).
    rewrite E in *. clear E.
    destruct (cops_checked_result _ H) as (H2 & Hu & Hb).
    rewrite cops_checked_graph.
    destruct (cops_answer self) as [[move|]|].
    + apply placed_result in H2 as (H1 & Hv & E); [|lia].
      rewrite E in *. cbn [with_graph graph] in *. rewrite Hg in *.
      split; [congruence|]. exists move. repeat split; auto.
    + exfalso. apply placed_result in H2 as (H1 & _); [|lia].
      now apply (settle_nonzero (-1) "Exception in cops call" self1 ltac:(lia)).
    + exfalso. apply placed_result in H2 as (H1 & _); [|lia].
      now apply (settle_nonzero (-1) "Exception in cops call" self1 ltac:(lia)).
  - destruct (robber_round_cases _ Ht) as (self1 & Hg & Hr & Hs & E).
    rewrite E in *. clear E.
    destruct (robber_checked_result _ H) as (H2 & Hu).
    rewrite robber_checked_graph.
    destruct (robber_answer self) as [[move|]|].
    + apply placed_result in H2 as (H1 & Hv & E); [|lia].
      rewrite E in *. cbn [with_graph graph] in *. rewrite Hg in *.
      split; [congruence|]. exists move. repeat split; auto. discriminate.
    + exfalso. apply placed_result in H2 as (H1 & _); [|lia].
      now apply (settle_nonzero 1 "Exception in robber call" self1 ltac:(lia)).
    + exfalso. apply placed_result in H2 as (H1 & _); [|lia].
      now apply (settle_nonzero 1 "Exception in robber call" self1 ltac:(lia)).
Qed.

(** A ply leaves the graph alone or writes the mover's mark for a valid
    move. *)
Lemma round_played_marks (self : Game) :
  graph (round_played self) = graph self \/
  exists move,
    valid_move (graph self) move = true /\
    graph (round_played self) = marked (graph self) (mover_mark self) move.
Proof.
  unfold mover_mark. destruct (cops_turn self) eqn:Ht.
  - destruct (cops_round_cases _ Ht) as (self1 & Hg & _ & _ & ->).
    rewrite cops_checked_graph.
    destruct (cops_answer self) as [[move|]|];
      rewrite placed_graph, ?settle_graph, Hg; [|now left ..].
    destruct (valid_move (graph self) move) eqn:Hv; [right; eauto | now left].
  - destruct (robber_round_cases _ Ht) as (self1 & Hg & _ & _ & ->).
    rewrite robber_checked_graph.
    destruct (robber_answer self) as [[move|]|];
      rewrite placed_graph, ?settle_graph, Hg; [|now left ..].
    destruct (valid_move (graph self) move) eqn:Hv; [right; eauto | now left].
Qed.

(** ** Labels on the board *)

Lemma valid_move_blank (g : Graph) (i j : Z) :
  valid_move g (Some (i, j)) = true ->
  In (i, j) cells /\ get_label g (Cell i j) = inr " ".
Proof.
  intro Hv. unfold valid_move in Hv. apply andb_true_iff in Hv as [Hb Hl].
  split; [now apply on_board_cases|].
  unfold has_label in Hl. destruct (get_label g (Cell i j)) as [e|l]; [discriminate|].
  apply String.eqb_eq in Hl. now subst.
Qed.

Lemma marked_keeps (g : Graph) (mark : string) (move : Move) (w : Node) (l : string) :
  valid_move g move = true -> get_label g w = inr l -> l <> " " ->
  get_label (marked g mark move) w = inr l.
Proof.
  intros Hv Hw Hl. destruct move as [[i j]|]; [|discriminate].
  rewrite get_label_marked.
  destruct (Node_eqb w (Cell i j)) eqn:E; [|exact Hw].
  apply Node_eqb_eq in E; subst w.
  destruct (valid_move_blank _ _ _ Hv) as [_ Hb]. congruence.
Qed.

Lemma dict_get_constant {V : Type} (d : list (Node * V)) (v0 : V) (k : Node) (v : V) :
  Forall (fun p => snd p = v0) d -> dict_get d k = Some v -> v = v0.
Proof.
  intro H. induction d as [|[k' v'] d IH]; simpl; [discriminate|].
  apply Forall_cons_iff in H as [Hp Hd]. cbn [snd] in Hp.
  destruct (Node_eqb k k'); [|exact (IH Hd)].
  intro E. congruence.
Qed.

Lemma init_all_blank (w : Node) (l : string) :
  get_label __init_tictactoe_graph w = inr l -> l = " ".
Proof.
  unfold get_label.
  destruct (dict_get (nodes __init_tictactoe_graph) w) as [l'|] eqn:E; [|discriminate].
  intro H. inversion H; subst l'.
  apply (dict_get_constant (nodes __init_tictactoe_graph) " " w l); [|exact E].
  vm_compute. repeat constructor.
Qed.

Lemma constructed_graph : graph constructed = __init_tictactoe_graph.
Proof.
  unfold constructed.
  destruct (new cops_engine); [destruct (new robber_engine)|];
    rewrite ?settle_graph; reflexivity.
Qed.

Lemma mover_mark_cases (self : Game) :
  mover_mark self = "C" \/ mover_mark self = "R".
Proof. unfold mover_mark. destruct (cops_turn self); auto. Qed.

(** X1.  A label once written on a node is never changed: whatever is not
    blank after [n] rounds is the same after any number of further rounds,
    also in a game that is already decided. *)
Theorem labels_are_never_overwritten (n m : nat) (w : Node) (l : string) :
  get_label (graph (after n)) w = inr l -> l <> " " ->
  get_label (graph (after (n + m))) w = inr l.
Proof.
  intros Hw Hl. induction m as [|m IH].
  - now rewrite Nat.add_0_r.
  - replace (n + S m)%nat with (S (n + m)) by lia. rewrite after_S.
    destruct (round_played_marks (after (n + m))) as [->|(move & Hv & ->)];
      [exact IH | now apply marked_keeps].
Qed.

(** X2.  Only cells of the grid are ever labelled, and only with a player's
    mark: in every reachable game a node whose label is not blank is a cell
    [(i, j)] with [i] and [j] in 0..2, and its label is 'C' or 'R'. *)
Theorem only_cells_carry_marks (n : nat) (w : Node) (l : string) :
  get_label (graph (after n)) w = inr l -> l <> " " ->
  (exists i j, w = Cell i j /\ In (i, j) cells) /\ (l = "C" \/ l = "R").
Proof.
  revert w l. induction n as [|n IH]; intros w l Hw Hl.
  - rewrite after_0, constructed_graph in Hw.
    now apply init_all_blank in Hw.
  - rewrite after_S in Hw.
    destruct (round_played_marks (after n)) as [E|(move & Hv & E)];
      rewrite E in Hw; [now apply IH|].
    destruct move as [[i j]|]; [|discriminate].
    rewrite get_label_marked in Hw.
    destruct (Node_eqb w (Cell i j)) eqn:Ew; [|now apply IH].
    apply Node_eqb_eq in Ew; subst w. inversion Hw; subst l.
    split; [|apply mover_mark_cases].
    exists i, j. split; [reflexivity|]. now apply (valid_move_blank _ _ _ Hv).
Qed.

(** ** The outcome is one of eight *)

Lemma sound_same (self self' : Game) :
  __result self' = __result self -> __status self' = __status self ->
  sound self -> sound self'.
Proof. unfold sound, coherent. intros -> ->. auto. Qed.

Lemma sound_settle (r : Z) (s : string) (self : Game) :
  r <> 0 -> s <> "Game continues" -> In (r, s) outcomes ->
  sound self -> sound (settle r s self).
Proof.
  intros Hr Hs Hin [Hc Hl]. split; [now apply settle_coherent|].
  rewrite settle_result, settle_status.
  destruct (Z.eqb_spec (__result self) 0) as [E|E].
  - apply Hc in E. now rewrite E.
  - destruct (String.eqb_spec (__status self) "Game continues") as [E'|E'];
      [now apply Hc in E' | exact Hl].
Qed.

Lemma sound_placed (mark : string) (r : Z) (s : string) (move : Move) (self : Game) :
  r <> 0 -> s <> "Game continues" -> In (r, s) outcomes ->
  sound self -> sound (placed mark r s move self).
Proof.
  intros Hr Hs Hin H. unfold placed. destruct (valid_move (graph self) move).
  - exact H.
  - now apply sound_settle.
Qed.

Ltac listed := first [lia | discriminate | (simpl; tauto)].

Lemma sound_round_played (self : Game) : sound self -> sound (round_played self).
Proof.
  intro H. destruct (cops_turn self) eqn:Ht.
  - destruct (cops_round_cases _ Ht) as (self1 & _ & Hr & Hs & ->).
    assert (H1 : sound self1) by now apply (sound_same self).
    assert (H2 : sound (settle (-1) "Exception in cops call" self1))
      by (apply sound_settle; [listed .. | exact H1]).
    unfold cops_checked.
    set (X := match cops_answer self with
              | Some (Returns move) => placed "C" (-1) "Cops invalid step" move self1
              | _ => placed "C" (-1) "Cops invalid step" None
                            (settle (-1) "Exception in cops call" self1)
              end).
    assert (HX : sound X)
      by (subst X; destruct (cops_answer self) as [[move|]|];
          apply sound_placed; solve [listed | assumption]).
    assert (HY : sound (if uniform_win (graph X) "C"
                        then settle 1 "Robber caught" X else X))
      by (destruct (uniform_win (graph X) "C");
          [apply sound_settle; solve [listed | assumption] | exact HX]).
    destruct (_ =? _)%nat; [apply sound_settle; solve [listed | assumption] | exact HY].
  - destruct (robber_round_cases _ Ht) as (self1 & _ & Hr & Hs & ->).
    assert (H1 : sound self1) by now apply (sound_same self).
    assert (H2 : sound (settle 1 "Exception in robber call" self1))
      by (apply sound_settle; [listed .. | exact H1]).
    unfold robber_checked.
    set (X := match robber_answer self with
              | Some (Returns move) => placed "R" 1 "Robber invalid step" move self1
              | _ => placed "R" 1 "Robber invalid step" None
                            (settle 1 "Exception in robber call" self1)
              end).
    assert (HX : sound X)
      by (subst X; destruct (robber_answer self) as [[move|]|];
          apply sound_placed; solve [listed | assumption]).
    destruct (uniform_win (graph X) "R");
      [apply sound_settle; solve [listed | assumption] | exact HX].
Qed.

Lemma sound_constructed : sound constructed.
Proof.
  assert (Hf : forall self, __result self = 0 -> __status self = "Game continues" ->
                            sound self).
  { intros self Er Es. split; [split; auto|]. rewrite Er, Es. now left. }
  unfold constructed.
  destruct (new cops_engine) as [c|]; [destruct (new robber_engine) as [r|]|].
  - now apply Hf.
  - apply sound_settle; [listed .. |]. now apply Hf.
  - apply sound_settle; [listed .. |]. now apply Hf.
Qed.

(** X3.  In every reachable game the pair of [result()] and [status()] is
    one of eight: (0, "Game continues"), the four Robber wins (-1 with "Cops
    invalid step", "Exception in cops call", "Robber escapes" or "Cops shift
    ends") and the three Cops wins (1 with "Robber invalid step", "Exception
    in robber call" or "Robber caught"). *)
Theorem outcome_is_one_of_eight (n : nat) :
  In (result (after n), status (after n)) outcomes.
Proof.
  assert (H : sound (after n)).
  { induction n as [|n IH].
    - rewrite after_0. exact sound_constructed.
    - rewrite after_S. now apply sound_round_played. }
  exact (proj2 H).
Qed.

(** ** Where a status comes from *)

Lemma cops_round_status_why (self : Game) :
  cops_turn self = true ->
  __status (round_played self) = __status self \/
  __status (round_played self) = "Exception in cops call" \/
  __status (round_played self) = "Cops invalid step" \/
  (__status (round_played self) = "Robber caught" /\
   uniform_win (graph (round_played self)) "C" = true) \/
  (__status (round_played self) = "Cops shift ends" /\
   blanks (graph (round_played self)) = 0%nat).
Proof.
  intro Ht. destruct (cops_round_cases _ Ht) as (self1 & _ & _ & Hs & ->).
  set (X := match cops_answer self with
            | Some (Returns move) => placed "C" (-1) "Cops invalid step" move self1
            | _ => placed "C" (-1) "Cops invalid step" None
                          (settle (-1) "Exception in cops call" self1)
            end).
  assert (HX : __status X = __status self \/
               __status X = "Exception in cops call" \/
               __status X = "Cops invalid step").
  { pose proof (settle_status_cases (-1) "Exception in cops call" self1) as He.
    rewrite Hs in He.
    subst X. destruct (cops_answer self) as [[move|]|].
    - destruct (placed_status_cases "C" (-1) "Cops invalid step" move self1) as [E|E];
        rewrite E; auto.
    - destruct (placed_status_cases "C" (-1) "Cops invalid step" None
                  (settle (-1) "Exception in cops call" self1)) as [E|E];
        rewrite E; tauto.
    - destruct (placed_status_cases "C" (-1) "Cops invalid step" None
                  (settle (-1) "Exception in cops call" self1)) as [E|E];
        rewrite E; tauto. }
  rewrite cops_checked_graph. unfold cops_checked.
  set (Y := if uniform_win (graph X) "C" then settle 1 "Robber caught" X else X).
  assert (HY : __status Y = __status X \/
               (__status Y = "Robber caught" /\ uniform_win (graph X) "C" = true)).
  { subst Y. destruct (uniform_win (graph X) "C"); [|now left].
    destruct (settle_status_cases 1 "Robber caught" X) as [E|E]; rewrite E; auto. }
  assert (HgY : graph Y = graph X)
    by (subst Y; destruct (uniform_win (graph X) "C"); rewrite ?settle_graph; reflexivity).
  rewrite HgY.
  destruct (blanks (graph X) =? 0)%nat eqn:Eb.
  - apply Nat.eqb_eq in Eb.
    destruct (settle_status_cases (-1) "Cops shift ends" Y) as [E|E]; rewrite E.
    + destruct HY as [E'|E']; [rewrite E'|]; tauto.
    + tauto.
  - destruct HY as [E'|E']; [rewrite E'|]; tauto.
Qed.

Lemma robber_round_status_why (self : Game) :
  cops_turn self = false ->
  __status (round_played self) = __status self \/
  __status (round_played self) = "Exception in robber call" \/
  __status (round_played self) = "Robber invalid step" \/
  (__status (round_played self) = "Robber escapes" /\
   uniform_win (graph (round_played self)) "R" = true).
Proof.
  intro Ht. destruct (robber_round_cases _ Ht) as (self1 & _ & _ & Hs & ->).
  set (X := match robber_answer self with
            | Some (Returns move) => placed "R" 1 "Robber invalid step" move self1
            | _ => placed "R" 1 "Robber invalid step" None
                          (settle 1 "Exception in robber call" self1)
            end).
  assert (HX : __status X = __status self \/
               __status X = "Exception in robber call" \/
               __status X = "Robber invalid step").
  { pose proof (settle_status_cases 1 "Exception in robber call" self1) as He.
    rewrite Hs in He.
    subst X. destruct (robber_answer self) as [[move|]|].
    - destruct (placed_status_cases "R" 1 "Robber invalid step" move self1) as [E|E];
        rewrite E; auto.
    - destruct (placed_status_cases "R" 1 "Robber invalid step" None
                  (settle 1 "Exception in robber call" self1)) as [E|E];
        rewrite E; tauto.
    - destruct (placed_status_cases "R" 1 "Robber invalid step" None
                  (settle 1 "Exception in robber call" self1)) as [E|E];
        rewrite E; tauto. }
  rewrite robber_checked_graph. unfold robber_checked.
  destruct (uniform_win (graph X) "R"); [|tauto].
  destruct (settle_status_cases (-1) "Robber escapes" X) as [E|E]; rewrite E; tauto.
Qed.

(** ** Lines on the board *)

Lemma has_label_marked_keeps (g : Graph) (mark label : string) (move : Move) (w : Node) :
  valid_move g move = true -> label <> " " ->
  has_label g label w = true -> has_label (marked g mark move) label w = true.
Proof.
  intros Hv Hl H. unfold has_label in *.
  destruct (get_label g w) as [e|l] eqn:E; [discriminate|].
  apply String.eqb_eq in H; subst l.
  rewrite (marked_keeps _ _ _ _ _ Hv E Hl). apply String.eqb_refl.
Qed.

Lemma classic_win_marked_keeps (g : Graph) (mark label : string) (move : Move) :
  valid_move g move = true -> label <> " " ->
  classic_win g label = true -> classic_win (marked g mark move) label = true.
Proof.
  intros Hv Hl H. unfold classic_win in *.
  apply existsb_exists in H as (line & Hin & Hall).
  apply existsb_exists. exists line. split; [exact Hin|].
  apply forallb_forall. intros w Hw.
  apply has_label_marked_keeps; auto.
  now apply (proj1 (forallb_forall _ _) Hall).
Qed.

Lemma has_label_marked_other (g : Graph) (mark label : string) (move : Move) (w : Node) :
  valid_move g move = true -> label <> " " -> String.eqb mark label = false ->
  has_label (marked g mark move) label w = has_label g label w.
Proof.
  intros Hv Hl Hm. destruct move as [[i j]|]; [|discriminate].
  rewrite has_label_marked.
  destruct (Node_eqb w (Cell i j)) eqn:E; [|reflexivity].
  apply Node_eqb_eq in E; subst w. rewrite Hm.
  destruct (valid_move_blank _ _ _ Hv) as [_ Hb].
  unfold has_label. rewrite Hb. symmetry. apply String.eqb_neq. congruence.
Qed.

Lemma forallb_pointwise {A : Type} (f f' : A -> bool) (l : list A) :
  (forall a, f a = f' a) -> forallb f l = forallb f' l.
Proof.
  intro H. induction l as [|a l IH]; simpl; [reflexivity|]. now rewrite H, IH.
Qed.

Lemma existsb_pointwise {A : Type} (f f' : A -> bool) (l : list A) :
  (forall a, f a = f' a) -> existsb f l = existsb f' l.
Proof.
  intro H. induction l as [|a l IH]; simpl; [reflexivity|]. now rewrite H, IH.
Qed.

Lemma classic_win_marked_other (g : Graph) (mark label : string) (move : Move) :
  valid_move g move = true -> label <> " " -> String.eqb mark label = false ->
  classic_win (marked g mark move) label = classic_win g label.
Proof.
  intros Hv Hl Hm. unfold classic_win.
  apply existsb_pointwise. intro line. apply forallb_pointwise. intro w.
  now apply has_label_marked_other.
Qed.

Lemma no_blank_no_move (g : Graph) (move : Move) :
  blanks g = 0%nat -> valid_move g move = false.
Proof.
  intro H. destruct (valid_move g move) eqn:Hv; [|reflexivity].
  pose proof (blanks_marked g "C" move Hv eq_refl). lia.
Qed.

Lemma after_uniform_is_classic (n : nat) (label : string) :
  label <> " " ->
  uniform_win (graph (after n)) label = classic_win (graph (after n)) label.
Proof.
  intro Hl. apply uniform_is_classic;
    [apply after_shaped | apply after_lines_blank | exact Hl].
Qed.

(** X4.  A verdict on the board is backed by the board.  In every reachable
    game, status "Robber caught" means that some row, column or diagonal
    holds three 'C'; status "Robber escapes" means that one holds three 'R';
    and status "Cops shift ends" means that no cell is blank.  This stays so
    however many rounds are played after the decision. *)
Theorem verdict_is_on_the_board (n : nat) :
  (status (after n) = "Robber caught" -> classic_win (graph (after n)) "C" = true) /\
  (status (after n) = "Robber escapes" -> classic_win (graph (after n)) "R" = true) /\
  (status (after n) = "Cops shift ends" -> blanks (graph (after n)) = 0%nat).
Proof.
  unfold status. induction n as [|n (IHC & IHR & IHT)].
  - rewrite after_0. unfold constructed.
    destruct (new cops_engine); [destruct (new robber_engine)|];
      rewrite ?settle_status; cbn; repeat split; discriminate.
  - assert (HC : "C" <> " ") by discriminate.
    assert (HR : "R" <> " ") by discriminate.
    pose proof (after_uniform_is_classic (S n) "C" HC) as UC.
    pose proof (after_uniform_is_classic (S n) "R" HR) as UR.
    rewrite after_S in *.
    assert (Hkeep : forall label, label <> " " ->
              classic_win (graph (after n)) label = true ->
              classic_win (graph (round_played (after n))) label = true).
    { intros label Hl H.
      destruct (round_played_marks (after n)) as [->|(move & Hv & ->)];
        [exact H | now apply classic_win_marked_keeps]. }
    assert (Hfull : blanks (graph (after n)) = 0%nat ->
                    blanks (graph (round_played (after n))) = 0%nat).
    { intro H.
      destruct (round_played_marks (after n)) as [->|(move & Hv & _)]; [exact H|].
      now rewrite (no_blank_no_move _ move H) in Hv. }
    destruct (cops_turn (after n)) eqn:Ht.
    + destruct (cops_round_status_why _ Ht) as [E|[E|[E|[[E U]|[E B]]]]];
        rewrite E; repeat split; intro H; try discriminate H; auto.
      now rewrite <- UC.
    + destruct (robber_round_status_why _ Ht) as [E|[E|[E|[E U]]]];
        rewrite E; repeat split; intro H; try discriminate H; auto.
      now rewrite <- UR.
Qed.

(** ** Counting the marks *)

Lemma marks_marked_same (g : Graph) (mark : string) (move : Move) :
  valid_move g move = true -> mark <> " " ->
  marks (marked g mark move) mark = S (marks g mark).
Proof.
  intros Hv Hm. destruct move as [[i j]|]; [|discriminate].
  destruct (valid_move_blank _ _ _ Hv) as [Hin Hb].
  unfold marks. apply (filter_one_less _ _ (i, j)).
  - exact cells_NoDup.
  - exact Hin.
  - cbn [fst snd]. rewrite has_label_marked, Node_eqb_refl. apply String.eqb_refl.
  - cbn [fst snd]. unfold has_label. rewrite Hb. apply String.eqb_neq. congruence.
  - intros [i' j'] Hne. cbn [fst snd]. rewrite has_label_marked.
    destruct (Node_eqb (Cell i' j') (Cell i j)) eqn:E; [|reflexivity].
    apply Node_eqb_eq in E. inversion E; subst. now destruct Hne.
Qed.

Lemma marks_marked_other (g : Graph) (mark label : string) (move : Move) :
  valid_move g move = true -> label <> " " -> String.eqb mark label = false ->
  marks (marked g mark move) label = marks g label.
Proof.
  intros Hv Hl Hm. unfold marks. f_equal. apply filter_ext.
  intros [i j]. now apply has_label_marked_other.
Qed.

Lemma half_double (k : nat) : ((2 * k) / 2 = k)%nat /\ ((2 * k + 1) / 2 = k)%nat.
Proof.
  split; symmetry.
  - apply (Nat.div_unique _ _ _ 0%nat); lia.
  - apply (Nat.div_unique _ _ _ 1%nat); lia.
Qed.

Lemma even_half (n : nat) :
  ((S n + 1) / 2 = if Nat.even n then S ((n + 1) / 2) else (n + 1) / 2)%nat /\
  (S n / 2 = if Nat.even n then n / 2 else S (n / 2))%nat.
Proof.
  destruct (Nat.even n) eqn:E.
  - apply Nat.even_spec in E as [k ->].
    replace (S (2 * k) + 1)%nat with (2 * (k + 1))%nat by lia.
    replace (S (2 * k))%nat with (2 * k + 1)%nat by lia.
    rewrite (proj1 (half_double (k + 1))), (proj1 (half_double k)),
      !(proj2 (half_double k)). lia.
  - assert (Ho : Nat.odd n = true) by (rewrite <- Nat.negb_even, E; reflexivity).
    apply Nat.odd_spec in Ho as [k ->].
    replace (S (2 * k + 1) + 1)%nat with (2 * (k + 1) + 1)%nat by lia.
    replace (2 * k + 1 + 1)%nat with (2 * (k + 1))%nat by lia.
    replace (S (2 * k + 1))%nat with (2 * (k + 1))%nat by lia.
    rewrite (proj2 (half_double (k + 1))), !(proj1 (half_double (k + 1))),
      (proj2 (half_double k)). lia.
Qed.

Lemma continuing_counts (n : nat) :
  result (after n) = 0 ->
  (blanks (graph (after n)) + n = 9)%nat /\
  marks (graph (after n)) "C" = ((n + 1) / 2)%nat /\
  marks (graph (after n)) "R" = (n / 2)%nat /\
  classic_win (graph (after n)) "C" = false /\
  classic_win (graph (after n)) "R" = false /\
  (forall k, (k < n)%nat -> result (after k) = 0 /\ answers_validly (after k)).
Proof.
  unfold result. induction n as [|n IH]; intro H0.
  - rewrite after_0, constructed_graph.
    repeat split; try reflexivity; lia.
  - assert (HC : "C" <> " ") by discriminate.
    assert (HR : "R" <> " ") by discriminate.
    pose proof (after_uniform_is_classic (S n) "C" HC) as UC.
    pose proof (after_uniform_is_classic (S n) "R" HR) as UR.
    rewrite after_S in *.
    destruct (continuing_ply _ H0) as (Hn & move & Ha & Hv & Hg & Hu & _).
    destruct (IH Hn) as (Hb & HmC & HmR & HwC & HwR & Hbefore).
    destruct (even_half n) as [EC ER].
    rewrite Hg in *. unfold mover_mark in *. rewrite after_cops_turn in *.
    split; [pose proof (blanks_marked _ (if Nat.even n then "C" else "R") move Hv
                          ltac:(now destruct (Nat.even n))); lia|].
    assert (Hlast : forall k, (k < S n)%nat ->
              __result (after k) = 0 /\ answers_validly (after k)).
    { intros k Hk. destruct (Nat.eq_dec k n) as [->|Hne].
      - split; [exact Hn|]. exists move. rewrite after_cops_turn. auto.
      - apply Hbefore. lia. }
    destruct (Nat.even n).
    + rewrite marks_marked_same, (marks_marked_other _ "C" "R"),
        (classic_win_marked_other _ "C" "R") by auto.
      rewrite HmC, HmR, EC, ER, <- UC. auto 7.
    + rewrite marks_marked_same, (marks_marked_other _ "R" "C"),
        (classic_win_marked_other _ "R" "C") by auto.
      rewrite HmC, HmR, EC, ER, <- UR. auto 7.
Qed.

(** X5.  While the game continues, the board tells the round: if
    [result()] is 0 after [n] calls of [next_round], then exactly [n] cells
    are labelled, the first [n] plies having been valid moves; 'C' is on
    [ceil(n/2)] of them and 'R' on [floor(n/2)]; no row, column or diagonal
    holds three equal marks; and every earlier result was 0 too. *)
Theorem continuing_game_board (n : nat) :
  result (after n) = 0 ->
  (blanks (graph (after n)) + n = 9)%nat /\
  marks (graph (after n)) "C" = ((n + 1) / 2)%nat /\
  marks (graph (after n)) "R" = (n / 2)%nat /\
  classic_win (graph (after n)) "C" = false /\
  classic_win (graph (after n)) "R" = false /\
  (forall k, (k < n)%nat -> result (after k) = 0 /\ answers_validly (after k)).
Proof. exact (continuing_counts n). Qed.

Lemma continuing_blanks (k : nat) :
  __result (after k) = 0 -> (blanks (graph (after k)) + k = 9)%nat.
Proof.
  induction k as [|k IH]; intro Hk.
  - now rewrite after_0, constructed_graph.
  - rewrite after_S in *.
    destruct (continuing_ply _ Hk) as (Hk' & move & _ & Hv & Hg & _).
    rewrite Hg.
    pose proof (blanks_marked _ (mover_mark (after k)) move Hv
                  ltac:(unfold mover_mark; now destruct (cops_turn (after k)))).
    specialize (IH Hk'). lia.
Qed.

Lemma ninth_round_decides : __result (after 9) <> 0.
Proof.
  intro H0. pose proof (continuing_blanks 9 H0) as Hb.
  rewrite after_S in H0, Hb.
  destruct (continuing_ply _ H0) as (_ & move & _ & _ & _ & _ & Hleft).
  apply Hleft; [now rewrite after_cops_turn | lia].
Qed.

Lemma decided_from_nine (n : nat) : (9 <= n)%nat -> __result (after n) <> 0.
Proof.
  intro Hn. replace n with (9 + (n - 9))%nat by lia.
  rewrite (proj1 (proj2 (after_decided 9 (n - 9) ninth_round_decides))).
  exact ninth_round_decides.
Qed.



Lemma round_played_blanks (self : Game) :
  (blanks (graph self) <= S (blanks (graph (round_played self))))%nat.
Proof.
  destruct (round_played_marks self) as [->|(move & Hv & ->)]; [lia|].
  rewrite (blanks_marked _ (mover_mark self) move Hv); [lia|].
  unfold mover_mark. now destruct (cops_turn self).
Qed.


(** X6.  Every game is decided within nine rounds: whatever the engines do,
    [result()] is non-zero after the ninth call of [next_round], and after
    every later call. *)
Theorem game_is_decided_within_nine_rounds (n : nat) :
  (9 <= n)%nat -> result (after n) <> 0.
Proof. exact (decided_from_nine n). Qed.

(** X7.  The outcome of a valid move.  In a game that continues, a ply with
    a valid move decides as follows: if the board then has a row, column or
    diagonal of the mover's mark, the mover wins ("Robber caught" with
    result 1 for Cops, "Robber escapes" with result -1 for Robber);
    otherwise, if it was a Cops ply and no cell is blank, the Robber wins
    with "Cops shift ends"; otherwise the game continues. *)
Theorem valid_move_outcome (n : nat) :
  result (after n) = 0 -> answers_validly (after n) ->
  (result (after (S n)), status (after (S n))) =
  if classic_win (graph (after (S n))) (mover_mark (after n))
  then if cops_turn (after n) then (1, "Robber caught") else (-1, "Robber escapes")
  else if cops_turn (after n) && (blanks (graph (after (S n))) =? 0)%nat
       then (-1, "Cops shift ends")
       else (0, "Game continues").
Proof.
  intros H0 (move & Ha & Hv). destruct (continuing n H0) as [Er Es].
  unfold result, status, mover_mark.
  assert (HC : "C" <> " ") by discriminate.
  assert (HR : "R" <> " ") by discriminate.
  pose proof (after_uniform_is_classic (S n) "C" HC) as UC.
  pose proof (after_uniform_is_classic (S n) "R" HR) as UR.
  rewrite after_S in *.
  destruct (cops_turn (after n)) eqn:Ht.
  - destruct (cops_round_cases _ Ht) as (self1 & Hg & Hr1 & Hs1 & E).
    rewrite Ha in E. rewrite E in *. clear E.
    rewrite cops_checked_graph in *. rewrite <- UC.
    unfold placed in *. rewrite Hg, Hv in *. cbn [with_graph graph] in *.
    unfold cops_checked. cbn [with_graph graph andb].
    set (X := with_graph (marked (graph (after n)) "C" move) self1).
    assert (HX : __result X = 0 /\ __status X = "Game continues")
      by (subst X; cbn [with_graph __result __status]; split; congruence).
    destruct HX as [HXr HXs].
    destruct (uniform_win (marked (graph (after n)) "C" move) "C").
    + destruct (settled_is_decided 1 "Robber caught" X ltac:(lia)
                  ltac:(now apply neq_continues) HXr HXs) as (Hd & E1 & E2).
      rewrite settle_graph.
      destruct (_ =? _)%nat; rewrite ?(settle_decided _ _ _ Hd), E1, E2; reflexivity.
    + destruct (blanks (graph X) =? 0)%nat eqn:Eb; subst X;
        cbn [with_graph graph] in Eb; rewrite Eb.
      * destruct (settle_continuing (-1) "Cops shift ends" _ HXr HXs) as [E1 E2].
        now rewrite E1, E2.
      * now rewrite HXr, HXs.
  - destruct (robber_round_cases _ Ht) as (self1 & Hg & Hr1 & Hs1 & E).
    rewrite Ha in E. rewrite E in *. clear E.
    rewrite robber_checked_graph in *. rewrite <- UR.
    unfold placed in *. rewrite Hg, Hv in *. cbn [with_graph graph] in *.
    unfold robber_checked. cbn [with_graph graph andb].
    set (X := with_graph (marked (graph (after n)) "R" move) self1).
    assert (HX : __result X = 0 /\ __status X = "Game continues")
      by (subst X; cbn [with_graph __result __status]; split; congruence).
    destruct HX as [HXr HXs].
    destruct (uniform_win (marked (graph (after n)) "R" move) "R").
    + destruct (settle_continuing (-1) "Robber escapes" _ HXr HXs) as [E1 E2].
      now rewrite E1, E2.
    + now rewrite HXr, HXs.
Qed.

(** ** The tie *)

Lemma status_first_set (s : string) (n : nat) :
  s <> "Game continues" -> __status (after n) = s ->
  __status (after 0) = s \/
  exists k, (S k <= n)%nat /\ __result (after k) = 0 /\ __status (after (S k)) = s.
Proof.
  intros Hs. induction n as [|n IH]; intro Hn; [now left|].
  destruct (string_dec (__status (after n)) s) as [E|E].
  - destruct (IH E) as [H0|(k & Hk & Hr & Hk')]; [now left|].
    right. exists k. split; [lia | split; assumption].
  - right. exists n. split; [lia|]. split; [|exact Hn].
    destruct (Z.eq_dec (__result (after n)) 0) as [Er|Er]; [exact Er|].
    destruct (after_decided n 1 Er) as (_ & _ & Hst).
    replace (n + 1)%nat with (S n) in Hst by lia. congruence.
Qed.

(** X12.  A tie is declared in the ninth round and in no other: if
    [status()] is ever "Cops shift ends", then the game was still continuing
    after eight rounds, the ninth call of [next_round], a Cops ply, filled
    the last blank cell and set that status, and so at least nine rounds
    have been played. *)
Theorem tie_is_declared_in_the_ninth_round (n : nat) :
  status (after n) = "Cops shift ends" ->
  (9 <= n)%nat /\
  result (after 8) = 0 /\
  status (after 9) = "Cops shift ends" /\
  blanks (graph (after 8)) = 1%nat /\
  blanks (graph (after 9)) = 0%nat.
Proof.
  unfold status, result. intro Hn.
  destruct (status_first_set "Cops shift ends" n ltac:(discriminate) Hn)
    as [H0|(k & Hk & Hr & Hs)].
  { exfalso. rewrite after_0 in H0. unfold constructed in H0.
    destruct (new cops_engine); [destruct (new robber_engine)|];
      vm_compute in H0; discriminate. }
  pose proof (continuing_blanks k Hr) as Hb.
  pose proof (round_played_blanks (after k)) as Hle.
  assert (Hc : __status (after k) = "Game continues") by now apply (after_coherent k).
  rewrite after_S in Hs.
  assert (Hz : blanks (graph (round_played (after k))) = 0%nat).
  { destruct (cops_turn (after k)) eqn:Ht.
    - destruct (cops_round_status_why _ Ht) as [H|[H|[H|[[H _]|[_ H]]]]];
        try exact H; rewrite Hs in H; try discriminate.
      rewrite Hc in H. discriminate.
    - destruct (robber_round_status_why _ Ht) as [H|[H|[H|[H _]]]];
        rewrite Hs in H; try discriminate.
      rewrite Hc in H. discriminate. }
  assert (Ek : k = 8%nat).
  { destruct (Nat.eq_dec k 9) as [->|Hne].
    - destruct ninth_round_decides. exact Hr.
    - lia. }
  subst k. rewrite <- after_S in Hs, Hz.
  split; [lia|]. split; [exact Hr|]. split; [exact Hs|]. split; [lia | exact Hz].
Qed.

(** ** Construction *)

(** X10.  When the Cops class constructs and the Robber class raises on
    construction, the constructor returns normally with an untouched board,
    [result()] is 1 and [status()] is "Exception in robber call"; each class
    was called once, Cops first, the exception was logged, the Cops instance
    is kept and there is no Robber instance. *)
Theorem robber_factory_failure (c : instance cops_engine) :
  new cops_engine = Returns c -> new robber_engine = Raises ->
  exists self,
    Game_new = (inr tt, self) /\
    result self = 1 /\
    status self = "Exception in robber call" /\
    invoked self = [NewCops; NewRobber] /\
    logged self = [EngineError] /\
    cops self = Some c /\
    robber self = None /\
    __round self = -1 /\
    graph self = __init_tictactoe_graph.
Proof.
  intros Hc Hr. exists constructed. split; [exact Game_new_runs|].
  unfold constructed. rewrite Hc, Hr. repeat split.
Qed.

Lemma no_engine_no_mark (self : Game) :
  (if cops_turn self then cops_answer self else robber_answer self) = None ->
  graph (round_played self) = graph self.
Proof.
  intro Ha. destruct (cops_turn self) eqn:Ht.
  - destruct (cops_round_cases _ Ht) as (self1 & Hg & _ & _ & ->).
    rewrite Ha, cops_checked_graph, placed_graph, settle_graph. exact Hg.
  - destruct (robber_round_cases _ Ht) as (self1 & Hg & _ & _ & ->).
    rewrite Ha, robber_checked_graph, placed_graph, settle_graph. exact Hg.
Qed.

(** X11.  A game whose Cops class raised on construction never gets an
    engine: however many rounds are played, the outcome stays -1 with
    "Exception in cops call", the board stays blank, no [step] is invoked,
    and every round logs one [AttributeError], raised by the call of [step]
    on the missing instance and caught by the ply. *)
Theorem rounds_of_a_game_without_engines (n : nat) :
  new cops_engine = Raises ->
  result (after n) = -1 /\
  status (after n) = "Exception in cops call" /\
  graph (after n) = __init_tictactoe_graph /\
  invoked (after n) = [NewCops] /\
  logged (after n) = EngineError :: repeat AttributeError n.
Proof.
  intro Hc. unfold result, status.
  assert (H0 : __result (after 0) = -1 /\ __status (after 0) = "Exception in cops call" /\
               invoked (after 0) = [NewCops] /\ logged (after 0) = [EngineError]).
  { rewrite after_0. unfold constructed. rewrite Hc. repeat split. }
  destruct H0 as (Hr0 & Hs0 & Hi0 & Hl0).
  destruct (after_decided 0 n ltac:(rewrite Hr0; discriminate)) as (_ & Er & Es).
  cbn [Nat.add] in Er, Es. rewrite Er, Es, Hr0, Hs0. clear Er Es.
  split; [reflexivity|]. split; [reflexivity|].
  assert (Hnone : forall k,
            (if cops_turn (after k) then cops_answer (after k)
             else robber_answer (after k)) = None).
  { intro k. destruct (after_engines k) as [Ec Ero].
    unfold cops_answer, robber_answer.
    rewrite (proj2 Ec Hc), (proj2 Ero (or_introl Hc)). now destruct (cops_turn (after k)). }
  induction n as [|n (Hg & Hi & Hl)].
  - rewrite after_0 at 1. rewrite constructed_graph. auto.
  - rewrite after_S.
    destruct (round_played_engines (after n)) as (Hi' & _).
    destruct (after_engines n) as [Ec Ero].
    rewrite (no_engine_no_mark _ (Hnone n)), Hi', round_played_logged, (Hnone n).
    rewrite (proj2 Ec Hc), (proj2 Ero (or_introl Hc)), Hg, Hi, Hl.
    split; [reflexivity|]. split; [now destruct (cops_turn (after n))|].
    cbn [app repeat]. f_equal. symmetry. apply repeat_cons.
Qed.

(** ** The topology of the board *)

(** X13.  The adjacency is the incidence of the grid, in every reachable
    game: the cell (i, j) and a line node are neighbours of each other
    exactly when the cell lies on that row, column or diagonal; a cell has
    no other neighbours than line nodes, and a line node none but cells. *)
Theorem adjacency_is_incidence (n : nat) (i j : Z) (v : Node) :
  In (i, j) cells -> In v line_nodes ->
  (In v (neighbours (graph (after n)) (Cell i j)) <-> lies_on i j v = true) /\
  (In (Cell i j) (neighbours (graph (after n)) v) <-> lies_on i j v = true) /\
  (forall w, In w (neighbours (graph (after n)) (Cell i j)) -> In w line_nodes) /\
  (forall w, In w (neighbours (graph (after n)) v) ->
             exists a b, w = Cell a b /\ In (a, b) cells).
Proof.
  intros Hc Hv. unfold neighbours.
  rewrite (proj2 (after_shaped n)).
  assert (Hcell : forall w, In w (map (fun c : Z * Z => Cell (fst c) (snd c)) cells) ->
                            exists a b, w = Cell a b /\ In (a, b) cells).
  { intros w Hw. apply in_map_iff in Hw as ([a b] & <- & Hin). eauto. }
  vm_compute in Hc.
  repeat (destruct Hc as [Hc|Hc]; [inversion Hc; subst i j; clear Hc|]);
    [..|contradiction];
    (vm_compute in Hv;
     repeat (destruct Hv as [Hv|Hv]; [subst v|]); [..|contradiction];
     (split; [|split; [|split]];
      [ vm_compute; split; intro H; try discriminate; try reflexivity;
        try (exfalso; intuition discriminate); intuition congruence
      | vm_compute; split; intro H; try discriminate; try reflexivity;
        try (exfalso; intuition discriminate); intuition congruence
      | intros w Hw; vm_compute in Hw |- *; intuition congruence
      | intros w Hw; apply Hcell; vm_compute in Hw |- *; intuition congruence ])).
Qed.

(** ** The driver *)

Lemma board_rows_grid (g : Graph) :
  tictactoe_shaped g ->
  board_rows g = BoardRows (grid_row g 0) (grid_row g 1) (grid_row g 2).
Proof.
  intros [Hn _]. destruct g as [ns ad]. cbn [nodes] in Hn.
  unfold board_rows, grid_row, label_of, get_label. cbn [nodes].
  vm_compute in Hn.
  repeat (destruct ns as [|[? ?] ns]; [discriminate|]).
  injection Hn as -> -> -> -> -> -> -> -> -> -> -> -> -> -> -> -> -> Hn.
  destruct ns; [|discriminate].
  reflexivity.
Qed.

(** X8.  What [main.py] logs in every pass is the grid in row-major order:
    filtering the items of [graph.nodes.data()] for the nodes whose first
    component is an [int] and slicing the result at 3 and 6 gives the cells
    (i, 0), (i, 1), (i, 2) of row i with their current labels, for i = 0, 1,
    2, in every reachable game. *)
Theorem logged_board_is_the_grid (n : nat) :
  board_rows (graph (after n)) =
  BoardRows (grid_row (graph (after n)) 0) (grid_row (graph (after n)) 1)
            (grid_row (graph (after n)) 2).
Proof. apply board_rows_grid, after_shaped. Qed.





(** ** The earliest line *)

Lemma line_needs_three (g : Graph) (label : string) :
  classic_win g label = true -> (3 <= marks g label)%nat.
Proof.
  unfold classic_win, marks. generalize (has_label g label). intro h.
  vm_compute.
  destruct (h (Cell 0 0)), (h (Cell 0 1)), (h (Cell 0 2)),
           (h (Cell 1 0)), (h (Cell 1 1)), (h (Cell 1 2)),
           (h (Cell 2 0)), (h (Cell 2 1)), (h (Cell 2 2));
    intro H; try discriminate H; lia.
Qed.

Lemma status_not_at_construction (s : string) :
  s <> "Game continues" -> s <> "Exception in cops call" ->
  s <> "Exception in robber call" -> __status (after 0) <> s.
Proof.
  intros H1 H2 H3. rewrite after_0. unfold constructed.
  destruct (new cops_engine); [destruct (new robber_engine)|];
    vm_compute; congruence.
Qed.

(** X14.  No line before the fifth round: "Robber caught" needs three 'C'
    on the board and so is never the status before five rounds have been
    played; "Robber escapes" needs three 'R' and is never the status before
    six. *)
Theorem no_line_before_the_fifth_round (n : nat) :
  (status (after n) = "Robber caught" -> (5 <= n)%nat) /\
  (status (after n) = "Robber escapes" -> (6 <= n)%nat).
Proof.
  unfold status. split; intro Hn.
  - destruct (status_first_set "Robber caught" n ltac:(discriminate) Hn)
      as [H0|(k & Hk & Hr & Hs)].
    { now apply status_not_at_construction in H0. }
    destruct (continuing_counts k Hr) as (_ & HmC & _).
    assert (Hc : __status (after k) = "Game continues") by now apply (after_coherent k).
    pose proof (after_uniform_is_classic (S k) "C" ltac:(discriminate)) as U.
    pose proof (after_cops_turn k) as Ev.
    rewrite after_S in Hs, U.
    destruct (cops_turn (after k)) eqn:Ht.
    + destruct (cops_round_status_why _ Ht) as [H|[H|[H|[[_ H]|[H _]]]]];
        try (rewrite Hs in H; try discriminate; rewrite Hc in H; discriminate).
      rewrite U in H. apply line_needs_three in H.
      symmetry in Ev. apply Nat.even_spec in Ev as [h ->].
      rewrite (proj2 (half_double h)) in HmC.
      destruct (round_played_marks (after (2 * h))) as [E|(move & Hv & E)];
        rewrite E in H.
      * lia.
      * unfold mover_mark in H. rewrite Ht in H.
        rewrite marks_marked_same in H by (auto; discriminate). lia.
    + destruct (robber_round_status_why _ Ht) as [H|[H|[H|[H _]]]];
        rewrite Hs in H; try discriminate. rewrite Hc in H. discriminate.
  - destruct (status_first_set "Robber escapes" n ltac:(discriminate) Hn)
      as [H0|(k & Hk & Hr & Hs)].
    { now apply status_not_at_construction in H0. }
    destruct (continuing_counts k Hr) as (_ & _ & HmR & _).
    assert (Hc : __status (after k) = "Game continues") by now apply (after_coherent k).
    pose proof (after_uniform_is_classic (S k) "R" ltac:(discriminate)) as U.
    pose proof (after_cops_turn k) as Ev.
    rewrite after_S in Hs, U.
    destruct (cops_turn (after k)) eqn:Ht.
    + destruct (cops_round_status_why _ Ht) as [H|[H|[H|[[H _]|[H _]]]]];
        rewrite Hs in H; try discriminate. rewrite Hc in H. discriminate.
    + destruct (robber_round_status_why _ Ht) as [H|[H|[H|[_ H]]]];
        try (rewrite Hs in H; try discriminate; rewrite Hc in H; discriminate).
      rewrite U in H. apply line_needs_three in H.
      assert (Ho : Nat.odd k = true) by (rewrite <- Nat.negb_even, <- Ev; reflexivity).
      apply Nat.odd_spec in Ho as [h ->].
      rewrite (proj2 (half_double h)) in HmR.
      destruct (round_played_marks (after (2 * h + 1))) as [E|(move & Hv & E)];
        rewrite E in H.
      * lia.
      * unfold mover_mark in H. rewrite Ht in H.
        rewrite marks_marked_same in H by (auto; discriminate). lia.
Qed.

End Referee.

Arguments graph {cops_engine robber_engine} self : rename.
Arguments __result {cops_engine robber_engine} self : rename.
Arguments __round {cops_engine robber_engine} self : rename.
Arguments __status {cops_engine robber_engine} self : rename.
Arguments cops {cops_engine robber_engine} self : rename.
Arguments robber {cops_engine robber_engine} self : rename.
Arguments invoked {cops_engine robber_engine} self : rename.
Arguments logged {cops_engine robber_engine} self : rename.
Arguments result {cops_engine robber_engine} self.
Arguments status {cops_engine robber_engine} self.
Arguments cops_turn {cops_engine robber_engine} self.
Arguments cops_answer {cops_engine robber_engine} self.
Arguments robber_answer {cops_engine robber_engine} self.
Arguments answers_validly {cops_engine robber_engine} self.
Arguments no_line {cops_engine robber_engine} self.
Arguments rounds {cops_engine robber_engine} n _.
Arguments bind {cops_engine robber_engine A B} m k _.
Arguments __robber_win {cops_engine robber_engine} _.
Arguments __cops_win {cops_engine robber_engine} _.
Arguments __set_status {cops_engine robber_engine} status _.

(** ** The properties at concrete games *)

(** The game that Cops lose on the first ply by playing (5, 5) keeps its
    outcome through two more rounds. *)
Lemma outcome_is_latched_witness :
  result (after off_board_cops silent_robber 1) <> 0 /\
  exists self',
    rounds 2 (after off_board_cops silent_robber 1) = (inr tt, self') /\
    result self' = result (after off_board_cops silent_robber 1) /\
    status self' = status (after off_board_cops silent_robber 1) /\
    forall s,
      bind __robber_win (fun _ => __set_status s) self' = (inr tt, self') /\
      bind __cops_win (fun _ => __set_status s) self' = (inr tt, self').
Proof.
  split.
  - vm_compute. discriminate.
  - apply (outcome_is_latched off_board_cops silent_robber 1 2).
    vm_compute. discriminate.
Defined.

(** A Cops class whose constructor raises. *)
Lemma cops_factory_failure_witness :
  new broken = Raises /\
  exists self,
    Game_new broken silent_robber = (inr tt, self) /\
    result self = -1 /\
    status self = "Exception in cops call" /\
    invoked self = [NewCops] /\
    robber self = None.
Proof.
  split.
  - reflexivity.
  - apply (cops_factory_failure broken silent_robber). reflexivity.
Defined.

(** Calls 2 and 3 of the tie game: a Cops step, then a Robber step.  Calls
    0 and 1 of a game whose Robber class raised: a Cops step, then nothing. *)
Lemma round_parity_witness :
  invoked (after tie_cops tie_robber 3) =
  (invoked (after tie_cops tie_robber 2) ++ [StepCops])%list /\
  invoked (after tie_cops tie_robber 4) =
  (invoked (after tie_cops tie_robber 3) ++ [StepRobber])%list /\
  invoked (after corner_cops broken 1) =
  (invoked (after corner_cops broken 0) ++ [StepCops])%list /\
  invoked (after corner_cops broken 2) =
  (invoked (after corner_cops broken 1) ++ [])%list.
Proof.
  destruct (round_parity tie_cops tie_robber) as (_ & _ & H).
  destruct (round_parity corner_cops broken) as (_ & _ & H').
  split; [exact (H 2%nat)|]. split; [exact (H 3%nat)|].
  split; [exact (H' 0%nat) | exact (H' 1%nat)].
Defined.

(** Cops raise on the first ply; Robber raises on the second. *)
Lemma step_exception_forfeits_witness :
  (result (after raising_cops silent_robber 0) = 0 /\
   cops_turn (after raising_cops silent_robber 0) = true /\
   cops_answer (after raising_cops silent_robber 0) = Some Raises /\
   result (after raising_cops silent_robber 1) = -1 /\
   status (after raising_cops silent_robber 1) = "Exception in cops call") /\
  (result (after corner_cops raising_robber 1) = 0 /\
   cops_turn (after corner_cops raising_robber 1) = false /\
   robber_answer (after corner_cops raising_robber 1) = Some Raises /\
   result (after corner_cops raising_robber 2) = 1 /\
   status (after corner_cops raising_robber 2) = "Exception in robber call").
Proof.
  split.
  - assert (H0 : result (after raising_cops silent_robber 0) = 0) by reflexivity.
    assert (Ht : cops_turn (after raising_cops silent_robber 0) = true)
      by reflexivity.
    assert (Ha : cops_answer (after raising_cops silent_robber 0) = Some Raises)
      by reflexivity.
    destruct (step_exception_forfeits raising_cops silent_robber 0 H0) as [H _].
    destruct (H Ht Ha) as (Er & Es & _). auto.
  - assert (H0 : result (after corner_cops raising_robber 1) = 0) by reflexivity.
    assert (Ht : cops_turn (after corner_cops raising_robber 1) = false)
      by reflexivity.
    assert (Ha : robber_answer (after corner_cops raising_robber 1) = Some Raises)
      by reflexivity.
    destruct (step_exception_forfeits corner_cops raising_robber 1 H0) as [_ H].
    destruct (H Ht Ha) as (Er & Es & _). auto.
Defined.

(** Cops open off the board; Robber aims at the cell Cops hold; Cops take a
    corner; Robber takes the centre. *)
Lemma move_validation_witness :
  (cops_turn (after off_board_cops silent_robber 0) = true /\
   cops_answer (after off_board_cops silent_robber 0) = Some (plays 5 5) /\
   valid_move (graph (after off_board_cops silent_robber 0)) (Some (5, 5)) = false /\
   result (after off_board_cops silent_robber 0) = 0 /\
   graph (after off_board_cops silent_robber 1) =
   graph (after off_board_cops silent_robber 0) /\
   result (after off_board_cops silent_robber 1) = -1 /\
   status (after off_board_cops silent_robber 1) = "Cops invalid step") /\
  (cops_turn (after corner_cops corner_robber 1) = false /\
   robber_answer (after corner_cops corner_robber 1) = Some (plays 0 0) /\
   valid_move (graph (after corner_cops corner_robber 1)) (Some (0, 0)) = false /\
   result (after corner_cops corner_robber 1) = 0 /\
   graph (after corner_cops corner_robber 2) = graph (after corner_cops corner_robber 1) /\
   result (after corner_cops corner_robber 2) = 1 /\
   status (after corner_cops corner_robber 2) = "Robber invalid step") /\
  (valid_move (graph (after corner_cops centre_robber 0)) (Some (0, 0)) = true /\
   get_label (graph (after corner_cops centre_robber 1)) (Cell 0 0) = inr "C") /\
  (valid_move (graph (after corner_cops centre_robber 1)) (Some (1, 1)) = true /\
   get_label (graph (after corner_cops centre_robber 2)) (Cell 1 1) = inr "R").
Proof.
  split; [|split; [|split]].
  - destruct (move_validation off_board_cops silent_robber 0 (Some (5, 5))) as [H _].
    destruct (H eq_refl eq_refl) as [Hbad _].
    destruct (Hbad eq_refl) as [Hg Ho]. destruct (Ho eq_refl) as [Er Es].
    repeat split; assumption.
  - destruct (move_validation corner_cops corner_robber 1 (Some (0, 0))) as [_ H].
    destruct (H eq_refl eq_refl) as [Hbad _].
    destruct (Hbad eq_refl) as [Hg Ho]. destruct (Ho eq_refl) as [Er Es].
    repeat split; assumption.
  - destruct (move_validation corner_cops centre_robber 0 (Some (0, 0))) as [H _].
    destruct (H eq_refl eq_refl) as [_ Hgood].
    destruct (Hgood eq_refl) as [_ Hl]. split; [reflexivity|]. exact (Hl 0 0 eq_refl).
  - destruct (move_validation corner_cops centre_robber 1 (Some (1, 1))) as [_ H].
    destruct (H eq_refl eq_refl) as [_ Hgood].
    destruct (Hgood eq_refl) as [_ Hl]. split; [reflexivity|]. exact (Hl 1 1 eq_refl).
Defined.

(** C4 as stated fails on a ply of a game that is already decided: Cops
    open with (5, 5) and lose; on the next ply Robber returns no move, and
    the result stays -1 with status "Cops invalid step" instead of becoming
    1 with status "Robber invalid step". *)
Lemma invalid_step_after_decision :
  cops_turn (after off_board_cops silent_robber 1) = false /\
  robber_answer (after off_board_cops silent_robber 1) = Some (Returns None) /\
  graph (after off_board_cops silent_robber 2) =
  graph (after off_board_cops silent_robber 1) /\
  result (after off_board_cops silent_robber 2) = -1 /\
  status (after off_board_cops silent_robber 2) = "Cops invalid step" /\
  ~ (result (after off_board_cops silent_robber 2) = 1 /\
     status (after off_board_cops silent_robber 2) = "Robber invalid step").
Proof.
  repeat split. intros [H _]. vm_compute in H. discriminate.
Qed.

(** The Robber ply after the tie game has ended, and the Cops ply that ends
    a continuing game by completing the main diagonal on the last cell. *)
Lemma three_in_a_row_precedes_tie_witness :
  (cops_turn (after tie_cops tie_robber 9) = false /\
   status (after tie_cops tie_robber 10) = "Cops shift ends" /\
   status (after tie_cops tie_robber 9) = "Cops shift ends") /\
  (cops_turn (after last_cell_cops last_cell_robber 8) = true /\
   __three_in_a_row (graph (after last_cell_cops last_cell_robber 8)) "C" = inr 0 /\
   __game_tied (graph (after last_cell_cops last_cell_robber 8)) = inr 0 /\
   __three_in_a_row (graph (after last_cell_cops last_cell_robber 9)) "C" = inr 1 /\
   __game_tied (graph (after last_cell_cops last_cell_robber 9)) = inr 1 /\
   result (after last_cell_cops last_cell_robber 8) = 0 /\
   result (after last_cell_cops last_cell_robber 9) = 1 /\
   status (after last_cell_cops last_cell_robber 9) = "Robber caught").
Proof.
  split.
  - destruct (three_in_a_row_precedes_tie tie_cops tie_robber 9) as [H _].
    split; [reflexivity|]. split; [reflexivity|]. exact (H eq_refl eq_refl).
  - destruct (three_in_a_row_precedes_tie last_cell_cops last_cell_robber 8) as [_ H].
    destruct (H eq_refl eq_refl eq_refl eq_refl eq_refl) as (Hc & _).
    destruct (Hc eq_refl) as [Er Es].
    repeat split; assumption.
Defined.

(** The tie game: every ply is a valid move and none makes a line. *)
Lemma tie_game_is_valid (k : nat) :
  (k < 9)%nat -> answers_validly (after tie_cops tie_robber k).
Proof.
  intro Hk.
  do 9 (destruct k as [|k]; [eexists; split; vm_compute; reflexivity|]).
  lia.
Defined.

Lemma tie_game_has_no_line (k : nat) :
  (k <= 9)%nat -> no_line (after tie_cops tie_robber k).
Proof.
  intro Hk.
  do 10 (destruct k as [|k]; [split; vm_compute; reflexivity|]).
  lia.
Defined.

(** The tie game ends on its ninth ply with the tie. *)
Lemma full_board_without_line_ends_in_tie_witness :
  (forall k, (k < 9)%nat -> answers_validly (after tie_cops tie_robber k)) /\
  (forall k, (k <= 9)%nat -> no_line (after tie_cops tie_robber k)) /\
  cops_turn (after tie_cops tie_robber 8) = true /\
  result (after tie_cops tie_robber 8) = 0 /\
  blanks (graph (after tie_cops tie_robber 9)) = 0%nat /\
  result (after tie_cops tie_robber 9) = -1 /\
  status (after tie_cops tie_robber 9) = "Cops shift ends".
Proof.
  split; [exact tie_game_is_valid|]. split; [exact tie_game_has_no_line|].
  destruct (full_board_without_line_ends_in_tie tie_cops tie_robber
              tie_game_is_valid tie_game_has_no_line) as (Hgo & _ & Hb & Hr & Hs).
  destruct (Hgo 8%nat ltac:(lia)) as (H0 & _ & Ht).
  repeat split; assumption.
Defined.

(** The game in which Cops have taken the main diagonal. *)
Lemma diagonal_game_lines_blank :
  lines_blank (graph (after diagonal_cops top_row_robber 5)).
Proof.
  intros v Hv. simpl in Hv.
  repeat (destruct Hv as [<-|Hv]; [reflexivity|]). contradiction.
Defined.

Lemma three_in_a_row_is_the_eight_line_check_witness :
  tictactoe_shaped (graph (after diagonal_cops top_row_robber 5)) /\
  lines_blank (graph (after diagonal_cops top_row_robber 5)) /\
  "C" <> " " /\ "R" <> " " /\
  __three_in_a_row (graph (after diagonal_cops top_row_robber 5)) "C" = inr 1 /\
  classic_win (graph (after diagonal_cops top_row_robber 5)) "C" = true /\
  __three_in_a_row (graph (after diagonal_cops top_row_robber 5)) "R" = inr 0 /\
  classic_win (graph (after diagonal_cops top_row_robber 5)) "R" = false.
Proof.
  assert (Hs : tictactoe_shaped (graph (after diagonal_cops top_row_robber 5)))
    by (split; reflexivity).
  assert (HC : "C" <> " ") by discriminate.
  assert (HR : "R" <> " ") by discriminate.
  destruct (three_in_a_row_is_the_eight_line_check diagonal_cops top_row_robber)
    as (_ & _ & H).
  destruct (H _ "C" Hs diagonal_game_lines_blank HC) as (_ & EC & _).
  destruct (H _ "R" Hs diagonal_game_lines_blank HR) as (_ & ER & _).
  split; [exact Hs|]. split; [exact diagonal_game_lines_blank|].
  split; [exact HC|]. split; [exact HR|].
  split; [rewrite EC; reflexivity|]. split; [reflexivity|].
  split; [rewrite ER; reflexivity | reflexivity].
Defined.

(** C2 as stated fails in its counts and for the blank label.  The graph
    has 17 nodes and 8 line nodes, not 16 and 7.  And in the game reached
    when Cops have taken the main diagonal, every line of the grid holds a
    mark, so no line has three blank cells, yet the check for the label ' '
    returns 1, because the neighbours of a cell are blank line nodes. *)
Lemma counts_and_blank_label :
  List.length (nodes __init_tictactoe_graph) <> 16%nat /\
  List.length (filter is_line (map fst (nodes __init_tictactoe_graph))) <> 7%nat /\
  lines_blank (graph (after diagonal_cops top_row_robber 5)) /\
  __three_in_a_row (graph (after diagonal_cops top_row_robber 5)) " " = inr 1 /\
  classic_win (graph (after diagonal_cops top_row_robber 5)) " " = false.
Proof.
  split; [vm_compute; discriminate|]. split; [vm_compute; discriminate|].
  split; [exact diagonal_game_lines_blank|]. split; reflexivity.
Qed.

(** C8 as stated fails on a game that is already decided.  Robber completes
    the top row on the sixth ply (result -1, status "Robber escapes"); the
    calls go on, and the ninth ply is a Cops move that completes the middle
    row and fills the last blank cell.  The outcome stays the Robber's and
    does not become the Cops win with status "Robber caught". *)
Lemma last_cell_win_after_decision :
  result (after late_row_cops escaping_robber 6) = -1 /\
  cops_turn (after late_row_cops escaping_robber 8) = true /\
  __three_in_a_row (graph (after late_row_cops escaping_robber 8)) "C" = inr 0 /\
  __game_tied (graph (after late_row_cops escaping_robber 8)) = inr 0 /\
  __three_in_a_row (graph (after late_row_cops escaping_robber 9)) "C" = inr 1 /\
  __game_tied (graph (after late_row_cops escaping_robber 9)) = inr 1 /\
  result (after late_row_cops escaping_robber 9) = -1 /\
  status (after late_row_cops escaping_robber 9) = "Robber escapes" /\
  ~ (result (after late_row_cops escaping_robber 9) = 1 /\
     status (after late_row_cops escaping_robber 9) = "Robber caught").
Proof.
  repeat split. intros [H _]. vm_compute in H. discriminate.
Qed.

(** A raising Cops constructor; a Cops engine that raises in its first
    step; and the same engine in a game that the Robber class has already
    lost on construction. *)
Lemma no_error_leaves_the_referee_witness :
  (new broken = Raises \/ new silent_robber = Raises) /\
  logged (after broken silent_robber 0) = [EngineError] /\
  result (after broken silent_robber 0) = -1 /\
  cops_answer (after raising_cops silent_robber 0) = Some Raises /\
  logged (after raising_cops silent_robber 1) =
  (logged (after raising_cops silent_robber 0) ++ [EngineError])%list /\
  result (after raising_cops silent_robber 1) = -1 /\
  cops_answer (after raising_cops broken 0) = Some Raises /\
  result (after raising_cops broken 0) <> 0 /\
  result (after raising_cops broken 1) = result (after raising_cops broken 0) /\
  status (after raising_cops broken 1) = status (after raising_cops broken 0).
Proof.
  assert (Hb : new broken = Raises \/ new silent_robber = Raises)
    by (left; reflexivity).
  assert (Hd : result (after raising_cops broken 0) <> 0)
    by (vm_compute; discriminate).
  destruct (no_error_leaves_the_referee broken silent_robber) as (_ & _ & Hnew & _).
  destruct (Hnew Hb) as [Hl Hr].
  destruct (no_error_leaves_the_referee raising_cops silent_robber)
    as (_ & _ & _ & Hstep).
  destruct (Hstep 0%nat eq_refl) as (Hl' & _ & Hr' & _).
  destruct (no_error_leaves_the_referee raising_cops broken)
    as (_ & _ & _ & Hlate).
  destruct (Hlate 0%nat eq_refl) as (_ & _ & _ & Hkeep).
  destruct (Hkeep Hd) as [Er Es].
  split; [exact Hb|]. split; [exact Hl|]. split; [exact Hr|].
  split; [reflexivity|]. split; [exact Hl'|]. split; [exact (Hr' eq_refl)|].
  split; [reflexivity|]. split; [exact Hd|]. split; [exact Er | exact Es].
Defined.

(** C7 as stated fails for an exception raised in a game that is already
    decided: the Robber class raises on construction, so Cops have won; the
    Cops engine then raises in its first step.  The exception is caught and
    logged, but the outcome is not turned in favour of the other side: it
    stays 1 with status "Exception in robber call", the win of the side that
    raised last. *)
Lemma cops_exception_after_robber_failure :
  new broken = Raises /\
  result (after raising_cops broken 0) = 1 /\
  cops_turn (after raising_cops broken 0) = true /\
  cops_answer (after raising_cops broken 0) = Some Raises /\
  fst (next_round raising_cops broken (after raising_cops broken 0)) = inr tt /\
  logged (after raising_cops broken 1) = [EngineError; EngineError] /\
  result (after raising_cops broken 1) = 1 /\
  status (after raising_cops broken 1) = "Exception in robber call" /\
  ~ (result (after raising_cops broken 1) = -1).
Proof.
  repeat split. intro H. vm_compute in H. discriminate.
Qed.

(** C9 as stated fails where construction failed, for there is no engine to
    ask.  The Cops class raises in its constructor, so there is no Cops
    instance and the Robber class is never called; the calls of [next_round]
    still count the rounds, but call 0 invokes no Cops [step] and call 1 no
    Robber [step]. *)
Lemma rounds_without_engines :
  new broken = Raises /\
  __round (after broken silent_robber 1) = 0 /\
  invoked (after broken silent_robber 1) = invoked (after broken silent_robber 0) /\
  ~ In StepCops (invoked (after broken silent_robber 1)) /\
  __round (after broken silent_robber 2) = 1 /\
  invoked (after broken silent_robber 2) = invoked (after broken silent_robber 1) /\
  ~ In StepRobber (invoked (after broken silent_robber 2)).
Proof.
  repeat split; intro H; vm_compute in H; intuition discriminate.
Qed.

(** ** The further properties at concrete games *)

(** The 'C' that Cops write on (0, 0) in the first round of the tie game is
    still there eight rounds later. *)
Lemma labels_are_never_overwritten_witness :
  get_label (graph (after tie_cops tie_robber 1)) (Cell 0 0) = inr "C" /\
  "C" <> " " /\
  get_label (graph (after tie_cops tie_robber (1 + 8))) (Cell 0 0) = inr "C".
Proof.
  assert (Hm : "C" <> " ") by discriminate.
  split; [reflexivity|]. split; [exact Hm|].
  exact (labels_are_never_overwritten tie_cops tie_robber 1 8 (Cell 0 0) "C" eq_refl Hm).
Defined.

(** The 'R' in the centre after the second round of the tie game. *)
Lemma only_cells_carry_marks_witness :
  get_label (graph (after tie_cops tie_robber 2)) (Cell 1 1) = inr "R" /\
  "R" <> " " /\
  (exists i j, Cell 1 1 = Cell i j /\ In (i, j) cells) /\ ("R" = "C" \/ "R" = "R").
Proof.
  assert (Hm : "R" <> " ") by discriminate.
  split; [reflexivity|]. split; [exact Hm|].
  exact (only_cells_carry_marks tie_cops tie_robber 2 (Cell 1 1) "R" eq_refl Hm).
Defined.

(** The diagonal of Cops, the top row of Robber, and the full board of the
    tie game. *)
Lemma verdict_is_on_the_board_witness :
  (status (after diagonal_cops top_row_robber 5) = "Robber caught" /\
   classic_win (graph (after diagonal_cops top_row_robber 5)) "C" = true) /\
  (status (after late_row_cops escaping_robber 6) = "Robber escapes" /\
   classic_win (graph (after late_row_cops escaping_robber 6)) "R" = true) /\
  (status (after tie_cops tie_robber 9) = "Cops shift ends" /\
   blanks (graph (after tie_cops tie_robber 9)) = 0%nat).
Proof.
  destruct (verdict_is_on_the_board diagonal_cops top_row_robber 5) as (Hc & _ & _).
  destruct (verdict_is_on_the_board late_row_cops escaping_robber 6) as (_ & Hr & _).
  destruct (verdict_is_on_the_board tie_cops tie_robber 9) as (_ & _ & Ht).
  split; [|split]; (split; [reflexivity|]).
  - exact (Hc eq_refl).
  - exact (Hr eq_refl).
  - exact (Ht eq_refl).
Defined.

(** The tie game after eight rounds: one blank cell, four marks each. *)
Lemma continuing_game_board_witness :
  result (after tie_cops tie_robber 8) = 0 /\
  (blanks (graph (after tie_cops tie_robber 8)) + 8 = 9)%nat /\
  marks (graph (after tie_cops tie_robber 8)) "C" = ((8 + 1) / 2)%nat /\
  marks (graph (after tie_cops tie_robber 8)) "R" = (8 / 2)%nat /\
  classic_win (graph (after tie_cops tie_robber 8)) "C" = false /\
  classic_win (graph (after tie_cops tie_robber 8)) "R" = false /\
  (forall k, (k < 8)%nat ->
             result (after tie_cops tie_robber k) = 0 /\
             answers_validly (after tie_cops tie_robber k)).
Proof.
  split; [reflexivity|].
  exact (continuing_game_board tie_cops tie_robber 8 eq_refl).
Defined.

(** Cops open off the board: the game is decided at once, and still so after
    the ninth round. *)
Lemma game_is_decided_within_nine_rounds_witness :
  (9 <= 9)%nat /\ result (after off_board_cops silent_robber 9) <> 0.
Proof.
  split; [apply le_n|].
  exact (game_is_decided_within_nine_rounds off_board_cops silent_robber 9 (le_n 9)).
Defined.

(** The fifth ply of the diagonal game, Cops to (2, 2). *)
Lemma valid_move_outcome_witness :
  result (after diagonal_cops top_row_robber 4) = 0 /\
  answers_validly (after diagonal_cops top_row_robber 4) /\
  (result (after diagonal_cops top_row_robber 5),
   status (after diagonal_cops top_row_robber 5)) = (1, "Robber caught").
Proof.
  assert (Hv : answers_validly (after diagonal_cops top_row_robber 4))
    by (exists (Some (2, 2)); split; reflexivity).
  split; [reflexivity|]. split; [exact Hv|].
  exact (valid_move_outcome diagonal_cops top_row_robber 4 eq_refl Hv).
Defined.


(** Cops construct, the Robber class raises. *)
Lemma robber_factory_failure_witness :
  new corner_cops = Returns [plays 0 0] /\
  new broken = Raises /\
  exists self,
    Game_new corner_cops broken = (inr tt, self) /\
    result self = 1 /\
    status self = "Exception in robber call" /\
    invoked self = [NewCops; NewRobber] /\
    logged self = [EngineError] /\
    cops self = Some [plays 0 0] /\
    robber self = None /\
    __round self = -1 /\
    graph self = __init_tictactoe_graph.
Proof.
  split; [reflexivity|]. split; [reflexivity|].
  exact (robber_factory_failure corner_cops broken [plays 0 0] eq_refl eq_refl).
Defined.

(** Three rounds after the Cops class raised. *)
Lemma rounds_of_a_game_without_engines_witness :
  new broken = Raises /\
  result (after broken silent_robber 3) = -1 /\
  status (after broken silent_robber 3) = "Exception in cops call" /\
  graph (after broken silent_robber 3) = __init_tictactoe_graph /\
  invoked (after broken silent_robber 3) = [NewCops] /\
  logged (after broken silent_robber 3) = EngineError :: repeat AttributeError 3.
Proof.
  split; [reflexivity|].
  exact (rounds_of_a_game_without_engines broken silent_robber 3 eq_refl).
Defined.

(** The tie game. *)
Lemma tie_is_declared_in_the_ninth_round_witness :
  status (after tie_cops tie_robber 9) = "Cops shift ends" /\
  (9 <= 9)%nat /\
  result (after tie_cops tie_robber 8) = 0 /\
  status (after tie_cops tie_robber 9) = "Cops shift ends" /\
  blanks (graph (after tie_cops tie_robber 8)) = 1%nat /\
  blanks (graph (after tie_cops tie_robber 9)) = 0%nat.
Proof.
  split; [reflexivity|].
  exact (tie_is_declared_in_the_ninth_round tie_cops tie_robber 9 eq_refl).
Defined.

(** The centre and the second diagonal, after two rounds. *)
Lemma adjacency_is_incidence_witness :
  In (1, 1) cells /\ In (Dia 1) line_nodes /\
  (In (Dia 1) (neighbours (graph (after corner_cops centre_robber 2)) (Cell 1 1)) <->
   lies_on 1 1 (Dia 1) = true) /\
  (In (Cell 1 1) (neighbours (graph (after corner_cops centre_robber 2)) (Dia 1)) <->
   lies_on 1 1 (Dia 1) = true) /\
  (forall w, In w (neighbours (graph (after corner_cops centre_robber 2)) (Cell 1 1)) ->
             In w line_nodes) /\
  (forall w, In w (neighbours (graph (after corner_cops centre_robber 2)) (Dia 1)) ->
             exists a b, w = Cell a b /\ In (a, b) cells).
Proof.
  assert (Hc : In (1, 1) cells) by (simpl; tauto).
  assert (Hv : In (Dia 1) line_nodes) by (simpl; tauto).
  split; [exact Hc|]. split; [exact Hv|].
  exact (adjacency_is_incidence corner_cops centre_robber 2 1 1 (Dia 1) Hc Hv).
Defined.

(** The diagonal of Cops is complete after five rounds, the top row of
    Robber after six. *)
Lemma no_line_before_the_fifth_round_witness :
  (status (after diagonal_cops top_row_robber 5) = "Robber caught" /\ (5 <= 5)%nat) /\
  (status (after late_row_cops escaping_robber 6) = "Robber escapes" /\ (6 <= 6)%nat).
Proof.
  destruct (no_line_before_the_fifth_round diagonal_cops top_row_robber 5) as [Hc _].
  destruct (no_line_before_the_fifth_round late_row_cops escaping_robber 6) as [_ Hr].
  split; (split; [reflexivity|]).
  - exact (Hc eq_refl).
  - exact (Hr eq_refl).
Defined.
